(** * The poset engine of [hasse.py]

    A shallow embedding of class [Poset] (relation reduction, cycle
    detection, rank assignment, reachability and bound queries) together
    with the properties its specification states about it.

    Conventions of the embedding:
    - an element is any Python value that can be compared, hashed and
      tested for truth: a type with decidable equality, [Countable]
      (hashable) and a [Truthy] instance (Python's [bool(x)]);
    - a Python [dict] is a [gmap], a Python [set] is a [gset]; [d[k]] on a
      missing key raises [KeyError];
    - exceptions and loops that may run forever live in the [outcome]
      monad; [OutOfFuel] is the answer of a loop whose iteration budget is
      used up and is proved unreachable where the code is total;
    - the interpreter allows a bounded number of nested calls: [dfs], the
      one recursive method, takes the number [depth] of nested calls of it
      that the interpreter still allows (the recursion limit less the
      frames in use) and raises [RecursionError] beyond it; the other
      methods nest to a fixed depth and are taken to fit. *)

From stdpp Require Import base decidable option list relations sets gmap strings.
From Stdlib Require Import ZArith Lia.

Local Open Scope Z_scope.

(** ** Python values used as elements *)

Class Truthy (E : Type) := truthy : E → bool.

#[global] Instance Z_truthy : Truthy Z := λ z, negb (z =? 0).
#[global] Instance string_truthy : Truthy string :=
  λ s, match s with EmptyString => false | _ => true end.

(** ** Exceptions and divergence *)

Inductive exn := KeyError | ValueError | RecursionError.

Inductive outcome (A : Type) :=
  | Ret (a : A)
  | Raise (e : exn)
  | OutOfFuel.
Arguments Ret {A} a.
Arguments Raise {A} e.
Arguments OutOfFuel {A}.

#[global] Instance outcome_ret : MRet outcome := λ A a, Ret a.
#[global] Instance outcome_bind : MBind outcome := λ A B k m,
  match m with
  | Ret a => k a
  | Raise e => Raise e
  | OutOfFuel => OutOfFuel
  end.

(** [d[k]] *)
Definition getitem `{Countable K} {V} (d : gmap K V) (k : K) : outcome V :=
  match d !! k with
  | Some v => Ret v
  | None => Raise KeyError
  end.

Module Hasse.
Section model.
Context {E : Type} `{Countable E} `{Truthy E}.

(** ** The object *)

Record Poset := mkPoset {
  elements : list E;
  relations : list (E * E);
  hasse_relations : list (E * E);
  levels : gmap Z (list E);
}.

Implicit Types (self : Poset) (a b c d x y z u v : E).
Implicit Types (es : list (E * E)).

(** ** The order as a graph *)

Definition edge es : relation E := λ a b, (a, b) ∈ es.

(** A directed cycle: some node reaches itself in one or more steps. *)
Definition has_cycle es : Prop := ∃ x, tc (edge es) x x.
Definition acyclic es : Prop := ∀ x, ¬ tc (edge es) x x.

(** Every endpoint of a pair is one of the elements. *)
Definition endpoints_in (els : list E) es : Prop :=
  ∀ a b, (a, b) ∈ es → a ∈ els ∧ b ∈ els.

(** ** [build_hasse_diagram] *)

(** The two nested [for] loops that fill [to_remove]; [hasse] is
    [self.hasse_relations] at that point, a copy of the raw list. *)
Definition collect_inner (rels hasse : list (E * E)) a b
    (to_remove : gset (E * E)) : gset (E * E) :=
  foldl (λ acc '(c, d),
           if decide (b = c ∧ (a, d) ∈ hasse) then acc ∪ {[ (a, d) ]} else acc)
        to_remove rels.

Definition collect_to_remove (rels hasse : list (E * E)) : gset (E * E) :=
  foldl (λ acc '(a, b), collect_inner rels hasse a b acc) ∅ rels.

Definition build_hasse_diagram self : Poset :=
  let hasse := relations self in
  let to_remove := collect_to_remove (relations self) hasse in
  mkPoset (elements self) (relations self)
          (filter (λ rel, rel ∉ to_remove) hasse) (levels self).

(** The specification's wording: [(a, d)] is a shortcut when it is in the
    raw list and some raw pair [(a, b)] is followed by a raw pair [(b, d)]. *)
Definition shortcut (rels : list (E * E)) (p : E * E) : Prop :=
  p ∈ rels ∧ Exists (λ q, q.1 = p.1 ∧ (q.2, p.2) ∈ rels) rels.

#[global] Instance shortcut_dec rels p : Decision (shortcut rels p).
Proof. unfold shortcut. apply _. Defined.

(** ** [dfs] and [check_for_cycles] *)

(** The two dictionaries [visited] and [stack] that [dfs] mutates. *)
Definition marks : Type := gmap E bool * gmap E bool.

(** The [for a, b in self.hasse_relations] loop of [dfs]; [rec] is the
    recursive call. The result [true] is the early [return True]. *)
Fixpoint dfs_edges (rec : E → marks → outcome (bool * marks)) v es (m : marks)
    : outcome (bool * marks) :=
  match es with
  | [] => Ret (false, m)
  | (a, b) :: es' =>
      if decide (a = v) then
        vb ← getitem m.1 b;
        if negb vb then
          '(found, m') ← rec b m;
          if (found : bool) then Ret (true, m') else dfs_edges rec v es' m'
        else
          sb ← getitem m.2 b;
          if (sb : bool) then Ret (true, m) else dfs_edges rec v es' m
      else dfs_edges rec v es' m
  end.

(** [depth] is the number of nested calls of [dfs] that the interpreter
    still allows; a call beyond it raises [RecursionError], which no frame
    catches. *)
Fixpoint dfs self (depth : nat) v (m : marks) : outcome (bool * marks) :=
  match depth with
  | O => Raise RecursionError
  | S depth' =>
      let m := (<[v := true]> m.1, <[v := true]> m.2) in
      '(found, m') ← dfs_edges (dfs self depth') v (hasse_relations self) m;
      if (found : bool) then Ret (true, m')
      else Ret (false, (m'.1, <[v := false]> m'.2))
  end.

(** [{elem: False for elem in self.elements}] *)
Definition all_false (els : list E) : gmap E bool :=
  list_to_map ((λ elem, (elem, false)) <$> els).

Fixpoint check_roots self (depth : nat) (roots : list E) (m : marks)
    : outcome bool :=
  match roots with
  | [] => Ret false
  | elem :: roots' =>
      vb ← getitem m.1 elem;
      if negb vb then
        '(found, m') ← dfs self depth elem m;
        if (found : bool) then Ret true else check_roots self depth roots' m'
      else check_roots self depth roots' m
  end.

(** [depth] is the number of nested calls of [dfs] the interpreter allows
    inside this call. *)
Definition check_for_cycles self (depth : nat) : outcome bool :=
  check_roots self depth (elements self)
              (all_false (elements self), all_false (elements self)).

(** ** [assign_levels] *)

(** One execution of the [for] loop inside [while changed]. *)
Fixpoint relax_pass es (lv : gmap E Z) (changed : bool)
    : outcome (gmap E Z * bool) :=
  match es with
  | [] => Ret (lv, changed)
  | (a, b) :: es' =>
      lb ← getitem lv b;
      la ← getitem lv a;
      if bool_decide (lb ≤ la)
      then relax_pass es' (<[b := la + 1]> lv) true
      else relax_pass es' lv changed
  end.

(** The [while changed] loop; [fuel] is the number of passes it may make.
    The second component of the result counts the passes made (a ghost
    value, not part of the program state). *)
Fixpoint relax_loop es (fuel : nat) (lv : gmap E Z) : outcome (gmap E Z * nat) :=
  match fuel with
  | O => OutOfFuel
  | S fuel' =>
      '(lv', changed) ← relax_pass es lv false;
      if (changed : bool) then
        '(final, passes) ← relax_loop es fuel' lv';
        Ret (final, S passes)
      else Ret (lv', 1%nat)
  end.

(** [{elem: 0 for elem in self.elements}] *)
Definition all_zero (els : list E) : gmap E Z :=
  list_to_map ((λ elem, (elem, 0)) <$> els).

(** The keys of a dictionary built from [els], in insertion order: a
    repeated element keeps its first position. *)
Fixpoint dict_keys (els : list E) : list E :=
  match els with
  | [] => []
  | elem :: els' => elem :: filter (λ e, e ≠ elem) (dict_keys els')
  end.

(** The body of [for elem, level in levels.items()]. *)
Definition group_step (groups : gmap Z (list E)) (elem : E) (level : Z)
    : gmap Z (list E) :=
  let groups :=
    match groups !! level with
    | None => <[level := []]> groups
    | Some _ => groups
    end in
  alter (λ bucket, bucket ++ [elem]) level groups.

Definition group_levels (keys : list E) (lv : gmap E Z) : gmap Z (list E) :=
  foldl (λ groups elem,
           match lv !! elem with
           | Some level => group_step groups elem level
           | None => groups
           end) ∅ keys.

Definition assign_levels self (fuel : nat) : outcome Poset :=
  '(lv, _) ← relax_loop (hasse_relations self) fuel (all_zero (elements self));
  Ret (mkPoset (elements self) (relations self) (hasse_relations self)
               (group_levels (dict_keys (elements self)) lv)).

(** ** [__init__] *)

(** The constructor as a state transformer on the object under
    construction: the object as the constructor leaves it, and how the
    constructor ends. *)
Definition init (depth : nat) (els : list E) (rels : list (E * E))
    : Poset * outcome () :=
  let self := mkPoset els rels [] ∅ in
  let self := build_hasse_diagram self in
  match check_for_cycles self depth with
  | Ret true => (self, Raise ValueError)
  | Ret false =>
      match assign_levels self (S (length els)) with
      | Ret self' => (self', Ret ())
      | Raise e => (self, Raise e)
      | OutOfFuel => (self, OutOfFuel)
      end
  | Raise e => (self, Raise e)
  | OutOfFuel => (self, OutOfFuel)
  end.

(** [Poset(elements, relations)] where the interpreter allows [depth] nested
    calls of [dfs]: the caller gets the object only when [__init__] returns. *)
Definition new (depth : nat) (els : list E) (rels : list (E * E))
    : outcome Poset :=
  match init depth els rels with
  | (self, Ret _) => Ret self
  | (_, Raise e) => Raise e
  | (_, OutOfFuel) => OutOfFuel
  end.

(** The rank of an element as the rank groups record it. *)
Definition has_rank self (elem : E) (level : Z) : Prop :=
  ∃ bucket, levels self !! level = Some bucket ∧ elem ∈ bucket.

(** ** [has_path] *)

(** The [for] loop of [has_path] for the popped [node]. The Python list
    [stack] is kept with its top first: [stack.append(b)] is [b :: stack]
    and [stack.pop()] takes the head. The result [true] is the early
    [return True]. *)
Fixpoint scan_successors (node end_ : E) es (visited : gset E) (stack : list E)
    : bool * (gset E * list E) :=
  match es with
  | [] => (false, (visited, stack))
  | (a, b) :: es' =>
      if decide (a = node ∧ b ∉ visited) then
        if decide (b = end_) then (true, (visited, stack))
        else scan_successors node end_ es' (visited ∪ {[ b ]}) (b :: stack)
      else scan_successors node end_ es' visited stack
  end.

(** The [while stack] loop; [fuel] bounds its iterations. *)
Fixpoint path_loop es (end_ : E) (fuel : nat) (visited : gset E) (stack : list E)
    : outcome bool :=
  match stack with
  | [] => Ret false
  | node :: stack' =>
      match fuel with
      | O => OutOfFuel
      | S fuel' =>
          let '(found, (visited', stack'')) :=
            scan_successors node end_ es visited stack' in
          if (found : bool) then Ret true
          else path_loop es end_ fuel' visited' stack''
      end
  end.

(** Every node is pushed at most once, and only [start] and targets of
    edges are pushed. *)
Definition has_path self (start end_ : E) : outcome bool :=
  if decide (start = end_) then Ret true
  else path_loop (hasse_relations self) end_
                 (S (length (hasse_relations self))) {[ start ]} [start].

(** ** [upper_bound], [lower_bound], [is_lattice] *)

(** A list comprehension [[z for z in l if p(z)]]. *)
Fixpoint filterM {A} (p : A → outcome bool) (l : list A) : outcome (list A) :=
  match l with
  | [] => Ret []
  | z :: l' =>
      keep ← p z;
      rest ← filterM p l';
      Ret (if (keep : bool) then z :: rest else rest)
  end.

(** [all(p(u) for u in l)] *)
Fixpoint allM {A} (p : A → outcome bool) (l : list A) : outcome bool :=
  match l with
  | [] => Ret true
  | u :: l' =>
      ok ← p u;
      if (ok : bool) then allM p l' else Ret false
  end.

(** [cs[0] if len(cs) == 1 else None] *)
Definition single (cs : list E) : option E :=
  match cs with
  | [z] => Some z
  | _ => None
  end.

Definition upper_bound self x y : outcome (option E) :=
  upper_bounds ← filterM (λ z, hx ← has_path self x z;
                               if (hx : bool) then has_path self y z
                               else Ret false) (elements self);
  ub_candidates ← filterM (λ z, allM (λ u, has_path self u z) upper_bounds)
                          upper_bounds;
  Ret (single ub_candidates).

Definition lower_bound self x y : outcome (option E) :=
  lower_bounds ← filterM (λ z, hx ← has_path self z x;
                               if (hx : bool) then has_path self z y
                               else Ret false) (elements self);
  lb_candidates ← filterM (λ z, allM (λ u, has_path self z u) lower_bounds)
                          lower_bounds;
  Ret (single lb_candidates).

(** [itertools.combinations(l, 2)] *)
Fixpoint combinations2 (l : list E) : list (E * E) :=
  match l with
  | [] => []
  | x :: l' => ((λ y, (x, y)) <$> l') ++ combinations2 l'
  end.

(** Python's [not r] for a result that is an element or [None]. *)
Definition py_not (r : option E) : bool :=
  match r with
  | None => true
  | Some e => negb (truthy e)
  end.

Fixpoint lattice_pairs self (pairs : list (E * E)) : outcome bool :=
  match pairs with
  | [] => Ret true
  | (x, y) :: pairs' =>
      ub ← upper_bound self x y;
      if py_not ub then Ret false
      else
        lb ← lower_bound self x y;
        if py_not lb then Ret false else lattice_pairs self pairs'
  end.

Definition is_lattice self : outcome bool :=
  lattice_pairs self (combinations2 (elements self)).

End model.
Arguments Poset E : clear implicits.

(** * Specification predicates and invariants *)

Section specification.
Context {E : Type} `{Countable E}.

(** Number of occurrences of a pair in a list. *)
Definition occurrences (p : E * E) (l : list (E * E)) : nat :=
  length (filter (λ q, q = p) l).

(** ** Reachability *)

(** Edges whose target is not yet visited: what the traversal of
    [has_path] may still push. *)
Definition pending (es : list (E * E)) (visited : gset E) : nat :=
  length (filter (λ p, p.2 ∉ visited) es).

(** The invariant of the [while stack] loop. *)
Definition path_inv (hs : list (E * E)) (start end_ : E)
    (visited : gset E) (stack : list E) : Prop :=
  start ∈ visited ∧ (end_ ∉ visited)
  ∧ (∀ x, x ∈ visited → rtc (edge hs) start x)
  ∧ (∀ x, x ∈ stack → x ∈ visited)
  ∧ (∀ x b, x ∈ visited → x ∉ stack → edge hs x b → b ∈ visited).

(** The pure reading of the query: [true] exactly when [has_path] says so. *)
Definition reachable (self : Poset E) (start end_ : E) : bool :=
  match has_path self start end_ with
  | Ret r => r
  | _ => false
  end.

(** ** Bounds *)

(** The candidate sets of the specification, over the query [has_path]. *)
Definition common_upper (self : Poset E) (x y z : E) : Prop :=
  z ∈ elements self
  ∧ has_path self x z = Ret true ∧ has_path self y z = Ret true.

Definition common_lower (self : Poset E) (x y z : E) : Prop :=
  z ∈ elements self
  ∧ has_path self z x = Ret true ∧ has_path self z y = Ret true.

(** [z] is reached by every common upper bound. *)
Definition upper_candidate (self : Poset E) (x y z : E) : Prop :=
  common_upper self x y z
  ∧ ∀ u, common_upper self x y u → has_path self u z = Ret true.

(** [z] reaches every common lower bound. *)
Definition lower_candidate (self : Poset E) (x y z : E) : Prop :=
  common_lower self x y z
  ∧ ∀ u, common_lower self x y u → has_path self z u = Ret true.

(** ** Ranks *)

(** Every rank is non-negative and is the length of some walk of covering
    edges that ends at the element. *)
Definition ranked (hs : list (E * E)) (lv : gmap E Z) : Prop :=
  ∀ v m, lv !! v = Some m → 0 ≤ m ∧ ∃ u, nsteps (edge hs) (Z.to_nat m) u v.

(** Every walk of at most [k] edges is below the rank of its end. *)
Definition covers (hs : list (E * E)) (k : nat) (lv : gmap E Z) : Prop :=
  ∀ v (j : nat) u m,
    (j ≤ k)%nat → nsteps (edge hs) j u v → lv !! v = Some m → Z.of_nat j ≤ m.

(** Ranks strictly increase along every pair of [es]. *)
Definition strict (es : list (E * E)) (lv : gmap E Z) : Prop :=
  ∀ a b, (a, b) ∈ es →
    ∃ la lb, lv !! a = Some la ∧ lv !! b = Some lb ∧ la < lb.

Definition same_keys (lv lv' : gmap E Z) : Prop :=
  ∀ x, is_Some (lv' !! x) ↔ is_Some (lv !! x).

(** [e] is in the rank group of [k]. *)
Definition in_bucket (groups : gmap Z (list E)) (e : E) (k : Z) : Prop :=
  ∃ bucket, groups !! k = Some bucket ∧ e ∈ bucket.

(** ** Reduction and the order of the raw relations *)

(** Every element that occurs in a pair. *)
Definition nodes (rels : list (E * E)) : list E := rels.*1 ++ rels.*2.

(** The object whose covering edges are the raw pairs themselves: it lets
    [has_path] be asked about the raw relations. *)
Definition raw_poset (rels : list (E * E)) : Poset E := mkPoset [] rels rels ∅.

(** How many nodes lie between [a] and [d] in the raw relations. *)
Definition span (rels : list (E * E)) (a d : E) : nat :=
  length (filter (λ x, reachable (raw_poset rels) a x
                       && reachable (raw_poset rels) x d = true)
                 (nodes rels)).

(** ** The lists that [upper_bound] and [lower_bound] build *)

Definition upper_bounds_of (self : Poset E) (x y : E) : list E :=
  filter (λ z, reachable self x z && reachable self y z = true) (elements self).

Definition lower_bounds_of (self : Poset E) (x y : E) : list E :=
  filter (λ z, reachable self z x && reachable self z y = true) (elements self).

(** [z] is reached by all of [l]; [z] reaches all of [l]. *)
Definition above_all (self : Poset E) (l : list E) (z : E) : bool :=
  bool_decide (Forall (λ u, reachable self u z = true) l).

Definition below_all (self : Poset E) (l : list E) (z : E) : bool :=
  bool_decide (Forall (λ u, reachable self z u = true) l).

(** ** Rank groups as lists *)

(** A rank group exists only when it has a member. *)
Definition as_bucket (l : list E) : option (list E) :=
  match l with
  | [] => None
  | _ => Some l
  end.

End specification.

(** ** Invariants of the cycle detector *)

Section traversal_invariants.
Context {E : Type} `{Countable E}.
Variables (self : Poset E) (els : list E).
Implicit Types (m : marks (E:=E)) (x u v a b : E).

(** The three colours of the traversal: unvisited, on the recursion stack,
    finished. *)
Definition vis m x : Prop := m.1 !! x = Some true.
Definition onstk m x : Prop := m.2 !! x = Some true.
Definition black m x : Prop := vis m x ∧ ¬ onstk m x.

(** Both dictionaries have the elements as keys, and what is on the stack
    is visited. *)
Definition marks_wf m : Prop :=
  (∀ x, is_Some (m.1 !! x) ↔ x ∈ els)
  ∧ (∀ x, is_Some (m.2 !! x) ↔ x ∈ els)
  ∧ (∀ x, onstk m x → vis m x).

(** Finished nodes only lead to finished nodes, and none is on a cycle. *)
Definition closed m : Prop :=
  ∀ u b, black m u → edge (hasse_relations self) u b → black m b.
Definition nocyc m : Prop :=
  ∀ u, black m u → ¬ tc (edge (hasse_relations self)) u u.
Definition good m : Prop := marks_wf m ∧ closed m ∧ nocyc m.

(** Every edge leads to an element. *)
Definition targets_in : Prop := ∀ a b, (a, b) ∈ hasse_relations self → b ∈ els.

(** The unvisited elements, counted as often as they are listed. *)
Definition white_count m : nat :=
  length (filter (λ x, m.1 !! x ≠ Some true) els).

(** What a call of [dfs] on [v] from the marks [m] establishes when
    [depth] nested calls are allowed: the recursion limit is hit only when
    more elements are unvisited than calls are allowed. *)
Definition dfs_post (depth : nat) m v (o : outcome (bool * marks)) : Prop :=
  match o with
  | Ret (true, _) => has_cycle (hasse_relations self)
  | Ret (false, m') =>
      good m' ∧ (∀ x, vis m x → vis m' x) ∧ (∀ x, onstk m' x ↔ onstk m x)
      ∧ black m' v
  | Raise KeyError => ¬ targets_in
  | Raise RecursionError => (depth < white_count m)%nat
  | _ => False
  end.

(** What the loop of [dfs] over the pairs [es] establishes when its
    recursive calls are allowed [depth] nested calls. *)
Definition loop_post (depth : nat) m v (es : list (E * E))
    (o : outcome (bool * marks)) : Prop :=
  match o with
  | Ret (true, _) => has_cycle (hasse_relations self)
  | Ret (false, m') =>
      good m' ∧ (∀ x, vis m x → vis m' x) ∧ (∀ x, onstk m' x ↔ onstk m x)
      ∧ (∀ b, (v, b) ∈ es → black m' b)
  | Raise KeyError => ¬ targets_in
  | Raise RecursionError => (depth < white_count m)%nat
  | _ => False
  end.

End traversal_invariants.

(** * Scenarios *)

(** The module-level example of [hasse.py]. *)
Definition scenario_a_elements : list Z := [1; 2; 3; 4; 5; 6; 7; 8; 9].
Definition scenario_a_relations : list (Z * Z) :=
  [(1,2); (1,3); (1,6); (2,4); (3,4); (5,1); (6,4); (1,7); (4,8); (4,9); (1,4)].

(** A three-element cycle. *)
Definition scenario_b_elements : list Z := [1; 2; 3].
Definition scenario_b_relations : list (Z * Z) := [(1,2); (2,3); (3,1)].

(** A chain of three hops with the pair it implies. *)
Definition chain3_elements : list Z := [1; 2; 3; 4].
Definition chain3_relations : list (Z * Z) := [(1,2); (2,3); (3,4); (1,4)].

(** Two elements, the smaller one being the integer [0]. *)
Definition zero_elements : list Z := [0; 1].
Definition zero_relations : list (Z * Z) := [(1,0)].

(** The objects the constructor builds for the first and the last scenario,
    up to their rank groups. *)
Definition scenario_a_poset : Poset Z :=
  build_hasse_diagram (mkPoset scenario_a_elements scenario_a_relations [] ∅).
Definition zero_poset : Poset Z :=
  build_hasse_diagram (mkPoset zero_elements zero_relations [] ∅).

(** The object that construction returns on the module-level example. *)
Definition scenario_a_built : Poset Z :=
  match new 4 scenario_a_elements scenario_a_relations with
  | Ret self => self
  | _ => scenario_a_poset
  end.

(** A cycle through [n] elements: [0 -> 1 -> ... -> n - 1 -> 0]. *)
Definition ring_elements (n : nat) : list Z := Z.of_nat <$> seq 0 n.
Definition ring_relations (n : nat) : list (Z * Z) :=
  ((λ i : nat, (Z.of_nat i, Z.of_nat (S i))) <$> seq 0 (n - 1))
  ++ [(Z.of_nat (n - 1), 0)].

(** The raw relations of the module-level example as an object of their own. *)
Definition scenario_a_raw : Poset Z :=
  mkPoset scenario_a_elements scenario_a_relations scenario_a_relations ∅.

(** The ranks that the relaxation loop returns on the module-level example,
    and the number of passes it makes. *)
Definition scenario_a_ranks : gmap Z Z :=
  match relax_loop (hasse_relations scenario_a_poset) 10
                   (all_zero scenario_a_elements) with
  | Ret (lv, _) => lv
  | _ => ∅
  end.
Definition scenario_a_passes : nat :=
  match relax_loop (hasse_relations scenario_a_poset) 10
                   (all_zero scenario_a_elements) with
  | Ret (_, passes) => passes
  | _ => 0%nat
  end.

(** Ten times the rank of each element of the module-level example. *)
Definition tenfold_rank (e : Z) : Z :=
  if bool_decide (e = 5) then 0
  else if bool_decide (e = 1) then 10
  else if bool_decide (e = 4) then 30
  else if bool_decide (e ∈ [8; 9]) then 40
  else 20.

(** An element outside the element list. *)
Definition stray_elements : list Z := [1].
Definition stray_relations : list (Z * Z) := [(1,2)].

(** * Properties *)

(** ** Relation reduction *)

Section reduction.
Context {E : Type} `{Countable E}.
Implicit Types (rels hasse : list (E * E)) (p : E * E) (a b c d : E).

Lemma elem_of_collect_inner rels hasse a b (acc : gset (E * E)) p :
  p ∈ collect_inner rels hasse a b acc ↔
  p ∈ acc ∨ (p.1 = a ∧ (b, p.2) ∈ rels ∧ p ∈ hasse).
Proof.
  unfold collect_inner. revert acc.
  induction rels as [|[c d] l IH]; intros acc; simpl.
  - split; [auto|]. intros [?|(_ & Hin & _)]; [done|]. by apply elem_of_nil in Hin.
  - rewrite IH. clear IH. destruct p as [p1 p2]; simpl.
    case_decide as Hd.
    + destruct Hd as [-> Hd]. rewrite elem_of_union, elem_of_singleton.
      split.
      * intros [[?|Heq]|(?&?&?)]; [by left| |].
        -- inversion Heq; subst. right. split_and!; [done|left|done].
        -- right. split_and!; [done|by right|done].
      * intros [?|(-> & Hin & ?)]; [by left; left|].
        apply elem_of_cons in Hin as [Heq|?].
        -- inversion Heq; subst. left; by right.
        -- right. done.
    + split.
      * intros [?|(?&?&?)]; [by left|]. right. split_and!; [done|by right|done].
      * intros [?|(-> & Hin & ?)]; [by left|].
        apply elem_of_cons in Hin as [Heq|?].
        -- inversion Heq; subst. by destruct Hd.
        -- right. done.
Qed.

Lemma elem_of_collect_outer rels hasse (l : list (E * E)) (acc : gset (E * E)) p :
  p ∈ foldl (λ acc '(a, b), collect_inner rels hasse a b acc) acc l ↔
  p ∈ acc ∨ (p ∈ hasse ∧ ∃ b, (p.1, b) ∈ l ∧ (b, p.2) ∈ rels).
Proof.
  revert acc. induction l as [|[a b] l IH]; intros acc; simpl.
  - split; [auto|]. intros [?|(_ & b & Hin & _)]; [done|]. by apply elem_of_nil in Hin.
  - rewrite IH, elem_of_collect_inner. clear IH. split.
    + intros [[?|(<- & ? & ?)]|(? & b' & ? & ?)].
      * by left.
      * right. split; [done|]. exists b. split; [left|done].
      * right. split; [done|]. exists b'. split; [by right|done].
    + intros [?|(? & b' & Hin & ?)]; [by left; left|].
      apply elem_of_cons in Hin as [Heq|?].
      * inversion Heq; subst. left; right. done.
      * right. split; [done|]. by exists b'.
Qed.

Lemma shortcut_iff rels a d :
  shortcut rels (a, d) ↔
  (a, d) ∈ rels ∧ ∃ b, (a, b) ∈ rels ∧ (b, d) ∈ rels.
Proof.
  unfold shortcut. rewrite Exists_exists. simpl. split.
  - intros [? ([a' b] & Hin & Ha & Hb)]. simpl in *. subst a'. eauto.
  - intros [? (b & ? & ?)]. split; [done|]. by exists (a, b).
Qed.

Lemma elem_of_collect_to_remove rels p :
  p ∈ collect_to_remove rels rels ↔ shortcut rels p.
Proof.
  unfold collect_to_remove. rewrite elem_of_collect_outer.
  destruct p as [a d]. rewrite shortcut_iff. simpl.
  split; [intros [Hf|?]; [by apply elem_of_empty in Hf|done] | by right].
Qed.

Lemma hasse_relations_build (self : Poset E) :
  hasse_relations (build_hasse_diagram self)
  = filter (λ p, ¬ shortcut (relations self) p) (relations self).
Proof.
  unfold build_hasse_diagram; simpl.
  apply list_filter_iff. intros p. by rewrite elem_of_collect_to_remove.
Qed.

(** C4: the covering edges are the raw relation list without the pairs
    [(a, d)] for which raw pairs [(a, b)] and [(b, d)] exist and [(a, d)] is
    itself a raw pair; the pairs to remove are determined on the raw list
    alone and removed by one filter. *)
Theorem C4_reduction_removes_shortcuts (self : Poset E) :
  hasse_relations (build_hasse_diagram self)
  = filter (λ p, ¬ shortcut (relations self) p) (relations self)
  ∧ ∀ a d, shortcut (relations self) (a, d) ↔
      (a, d) ∈ relations self
      ∧ ∃ b, (a, b) ∈ relations self ∧ (b, d) ∈ relations self.
Proof. split; [apply hasse_relations_build | apply shortcut_iff]. Qed.

Lemma occurrences_filter (P : E * E → Prop) `{!∀ q, Decision (P q)} p l :
  occurrences p (filter P l) = if decide (P p) then occurrences p l else 0%nat.
Proof.
  unfold occurrences. induction l as [|q l IH]; [by case_decide|].
  rewrite (filter_cons P). rewrite (filter_cons (λ q, q = p) q l).
  destruct (decide (P q)) as [HP|HP]; [rewrite filter_cons|];
    destruct (decide (q = p)) as [->|]; simpl; rewrite IH; try done.
  - by case_decide.
  - by case_decide.
Qed.

(** C10: reduction only deletes: the covering edges are a subsequence of the
    raw relation list (so each one is a raw pair and the input order is
    kept), every occurrence of a shortcut pair is dropped and every
    occurrence of any other pair is kept. *)
Theorem C10_reduction_is_subsequence (self : Poset E) :
  sublist (hasse_relations (build_hasse_diagram self)) (relations self)
  ∧ ∀ p,
      (shortcut (relations self) p →
         occurrences p (hasse_relations (build_hasse_diagram self)) = 0%nat)
      ∧ (¬ shortcut (relations self) p →
         occurrences p (hasse_relations (build_hasse_diagram self))
         = occurrences p (relations self)).
Proof.
  rewrite hasse_relations_build. split; [apply sublist_filter|].
  intros p. rewrite occurrences_filter. split; intros Hp.
  - case_decide; [tauto|done].
  - case_decide; [done|tauto].
Qed.

Lemma filter_all (P : E * E → Prop) `{!∀ p, Decision (P p)} (l : list (E * E)) :
  (∀ p, p ∈ l → P p) → filter P l = l.
Proof.
  induction l as [|p l IH]; intros Hall; [done|].
  rewrite filter_cons_True by (apply Hall; left).
  rewrite IH; [done|]. intros q ?. apply Hall. by right.
Qed.

Lemma build_hasse_diagram_subset (self : Poset E) p :
  p ∈ hasse_relations (build_hasse_diagram self) → p ∈ relations self.
Proof. rewrite hasse_relations_build, list_elem_of_filter. tauto. Qed.

End reduction.

(** ** Reachability *)

Section reachability.
Context {E : Type} `{Countable E}.
Implicit Types (es hs : list (E * E)) (visited : gset E) (stack : list E).
Implicit Types (x y a b node start : E).

Lemma pending_le_length es visited : (pending es visited ≤ length es)%nat.
Proof. apply length_filter. Qed.

Lemma pending_mono es visited visited' :
  visited ⊆ visited' → (pending es visited' ≤ pending es visited)%nat.
Proof.
  intros Hsub. unfold pending. induction es as [|p es IH]; [done|].
  rewrite !filter_cons.
  destruct (decide (p.2 ∉ visited')) as [Hn|_];
    destruct (decide (p.2 ∉ visited)) as [|Hv]; simpl; try lia.
  exfalso. apply Hv. intros ?. apply Hn. by apply Hsub.
Qed.

Lemma pending_add es visited a b :
  (a, b) ∈ es → b ∉ visited →
  (pending es (visited ∪ {[ b ]}) < pending es visited)%nat.
Proof.
  intros Hin Hb. unfold pending. induction es as [|p es IH].
  { by apply elem_of_nil in Hin. }
  assert (Hmono : (pending es (visited ∪ {[ b ]}) ≤ pending es visited)%nat).
  { apply pending_mono. apply union_subseteq_l. }
  unfold pending in Hmono. rewrite !filter_cons.
  apply elem_of_cons in Hin as [<-|Hin]; simpl.
  - destruct (decide (b ∉ visited ∪ {[ b ]})) as [Hn|_].
    { exfalso. apply Hn, elem_of_union_r, elem_of_singleton. done. }
    destruct (decide (b ∉ visited)); [simpl; lia|done].
  - specialize (IH Hin).
    destruct (decide (p.2 ∉ visited ∪ {[ b ]})) as [Hn|_];
      destruct (decide (p.2 ∉ visited)) as [|Hv]; simpl; try lia.
    exfalso. apply Hv. intros ?. apply Hn. by apply elem_of_union_l.
Qed.

(** What one scan of the edge list does for the popped [node]. *)
Lemma scan_successors_spec hs node end_ es visited stack found visited' stack' :
  (∀ p, p ∈ es → p ∈ hs) →
  scan_successors node end_ es visited stack = (found, (visited', stack')) →
  if found then edge hs node end_
  else visited ⊆ visited'
     ∧ (∀ x, x ∈ visited' → x ∈ visited ∨ (edge hs node x ∧ x ≠ end_))
     ∧ (∀ x, x ∈ stack' → x ∈ stack ∨ x ∈ visited')
     ∧ (∀ x, x ∈ stack → x ∈ stack')
     ∧ (∀ x, x ∈ visited' → x ∈ visited ∨ x ∈ stack')
     ∧ (∀ b, (node, b) ∈ es → b ∈ visited')
     ∧ (length stack' + pending hs visited' ≤ length stack + pending hs visited)%nat.
Proof.
  revert visited stack.
  induction es as [|[a b] es IH]; intros visited stack Hsub; simpl.
  - intros [= <- <- <-]. split_and!; auto.
    intros b Hb. by apply elem_of_nil in Hb.
  - assert (Hsub' : ∀ p, p ∈ es → p ∈ hs) by (intros; apply Hsub; by right).
    assert (Hab : (a, b) ∈ hs) by (apply Hsub; left).
    destruct (decide (a = node ∧ b ∉ visited)) as [[-> Hnv]|Hno].
    + destruct (decide (b = end_)) as [->|Hne].
      * intros [= <- <- <-]. done.
      * intros Hscan. specialize (IH _ _ Hsub' Hscan).
        destruct found; [done|].
        destruct IH as (I1 & I2 & I3 & I4 & I5 & I6 & I7).
        pose proof (pending_add hs visited node b Hab Hnv) as Hlt.
        split_and!.
        -- set_solver.
        -- intros x Hx. destruct (I2 x Hx) as [Hx'|?]; [|by right].
           apply elem_of_union in Hx' as [?|Hx']; [by left|].
           apply elem_of_singleton in Hx' as ->. by right.
        -- intros x Hx. destruct (I3 x Hx) as [Hx'|?]; [|by right].
           apply elem_of_cons in Hx' as [->|?]; [|by left].
           right. apply I1. set_solver.
        -- intros x Hx. apply I4. by right.
        -- intros x Hx. destruct (I5 x Hx) as [Hx'|?]; [|by right].
           apply elem_of_union in Hx' as [?|Hx']; [by left|].
           apply elem_of_singleton in Hx' as ->. right. apply I4. left.
        -- intros b' Hb'. apply elem_of_cons in Hb' as [Heq|?]; [|by apply I6].
           inversion Heq; subst. apply I1. set_solver.
        -- simpl in I7. lia.
    + intros Hscan. specialize (IH _ _ Hsub' Hscan).
      destruct found; [done|].
      destruct IH as (I1 & I2 & I3 & I4 & I5 & I6 & I7).
      split_and!; try done.
      intros b' Hb'. apply elem_of_cons in Hb' as [Heq|?]; [|by apply I6].
      inversion Heq; subst. apply I1.
      destruct (decide (b ∈ visited)); [done|]. by destruct Hno.
Qed.

Lemma closed_set_reach hs visited x y :
  (∀ u b, u ∈ visited → edge hs u b → b ∈ visited) →
  rtc (edge hs) x y → x ∈ visited → y ∈ visited.
Proof. intros Hcl Hr. induction Hr; eauto. Qed.

Lemma path_loop_spec hs start end_ fuel visited stack :
  path_inv hs start end_ visited stack →
  (length stack + pending hs visited ≤ fuel)%nat →
  ∃ r, path_loop hs end_ fuel visited stack = Ret r
       ∧ (r = true ↔ rtc (edge hs) start end_).
Proof.
  revert visited stack.
  induction fuel as [|fuel IH]; intros visited stack Hinv Hfuel.
  - destruct stack as [|node stack]; [|simpl in Hfuel; lia].
    simpl. exists false. split; [done|]. split; [done|]. intros Hreach.
    destruct Hinv as (Hs & He & _ & _ & Hcl). exfalso. apply He.
    eapply closed_set_reach; [|done..].
    intros u b Hu. apply Hcl; [done|]. apply not_elem_of_nil.
  - destruct stack as [|node stack].
    + simpl. exists false. split; [done|]. split; [done|]. intros Hreach.
      destruct Hinv as (Hs & He & _ & _ & Hcl). exfalso. apply He.
      eapply closed_set_reach; [|done..].
      intros u b Hu. apply Hcl; [done|]. apply not_elem_of_nil.
    + simpl.
      destruct (scan_successors node end_ hs visited stack)
        as [found [visited' stack']] eqn:Hscan.
      apply (scan_successors_spec hs) in Hscan; [|done].
      destruct Hinv as (Hs & He & Hr & Hst & Hcl).
      assert (Hnode : node ∈ visited) by (apply Hst; left).
      destruct found.
      * exists true. split; [done|]. split; [|done]. intros _.
        eapply rtc_r; [by apply Hr|done].
      * destruct Hscan as (I1 & I2 & I3 & I4 & I5 & I6 & I7).
        apply IH; [|simpl in Hfuel; lia].
        split_and!.
        -- by apply I1.
        -- intros Hin. destruct (I2 _ Hin) as [?|[_ ?]]; done.
        -- intros x Hx. destruct (I2 _ Hx) as [?|[? _]]; [by apply Hr|].
           eapply rtc_r; [by apply Hr|done].
        -- intros x Hx. destruct (I3 _ Hx) as [?|?]; [|done].
           apply I1, Hst. by right.
        -- intros x b Hx Hnst Hxb.
           destruct (I5 _ Hx) as [Hx'|?]; [|done].
           destruct (decide (x = node)) as [->|Hne]; [by apply I6|].
           apply I1. eapply Hcl; [done| |done].
           intros Hin. apply elem_of_cons in Hin as [?|Hin]; [done|].
           by apply Hnst, I4.
Qed.

(** [has_path] always answers, and answers whether a directed path of
    covering edges leads from [start] to [end_]. *)
Lemma has_path_spec (self : Poset E) start end_ :
  ∃ r, has_path self start end_ = Ret r
       ∧ (r = true ↔ rtc (edge (hasse_relations self)) start end_).
Proof.
  unfold has_path. destruct (decide (start = end_)) as [->|Hne].
  { exists true. done. }
  apply path_loop_spec.
  - split_and!.
    + set_solver.
    + set_solver.
    + intros x ->%elem_of_singleton. done.
    + intros x ->%list_elem_of_singleton. set_solver.
    + intros x b ->%elem_of_singleton Hn. exfalso. apply Hn. left.
  - pose proof (pending_le_length (hasse_relations self) {[ start ]}).
    simpl. lia.
Qed.

Lemma has_path_true (self : Poset E) start end_ :
  has_path self start end_ = Ret true ↔
  rtc (edge (hasse_relations self)) start end_.
Proof.
  destruct (has_path_spec self start end_) as (r & -> & Hr).
  rewrite <- Hr. split; [by intros [= ->]|by intros ->].
Qed.

Lemma has_path_reachable (self : Poset E) start end_ :
  has_path self start end_ = Ret (reachable self start end_).
Proof.
  unfold reachable. by destruct (has_path_spec self start end_) as (r & -> & _).
Qed.

Lemma reachable_true (self : Poset E) start end_ :
  reachable self start end_ = true ↔
  rtc (edge (hasse_relations self)) start end_.
Proof.
  rewrite <- has_path_true, has_path_reachable.
  split; [by intros ->|by intros [= ->]].
Qed.

(** C7: reachability is reflexive, and transitive: when [a] reaches [b]
    and [b] reaches [c] then [a] reaches [c]. *)
Theorem C7_reachability_reflexive_transitive (self : Poset E) :
  (∀ x, has_path self x x = Ret true)
  ∧ (∀ a b c,
       has_path self a b = Ret true → has_path self b c = Ret true →
       has_path self a c = Ret true).
Proof.
  split.
  - intros x. by apply has_path_true.
  - intros a b c. rewrite !has_path_true. apply rtc_trans.
Qed.

End reachability.

(** ** Bounds *)

Section bounds.
Context {E : Type} `{Countable E}.
Implicit Types (x y z u : E) (l els : list E).

Lemma filterM_pure {A} (p : A → outcome bool) (f : A → bool) (k : list A) :
  (∀ w, p w = Ret (f w)) → filterM p k = Ret (filter (λ w, f w = true) k).
Proof.
  intros Hp. induction k as [|w k IH]; simpl; [done|].
  rewrite Hp, IH. simpl. rewrite filter_cons.
  destruct (f w); by case_decide.
Qed.

Lemma allM_pure {A} (p : A → outcome bool) (f : A → bool) (k : list A) :
  (∀ w, p w = Ret (f w)) →
  allM p k = Ret (bool_decide (Forall (λ w, f w = true) k)).
Proof.
  intros Hp. induction k as [|w k IH]; simpl; [done|].
  rewrite Hp. simpl. destruct (f w) eqn:Hw.
  - rewrite IH. f_equal. apply bool_decide_ext. rewrite Forall_cons. tauto.
  - f_equal. symmetry. apply bool_decide_eq_false. rewrite Forall_cons.
    intros [? _]. congruence.
Qed.

Lemma single_Some l z : single l = Some z ↔ l = [z].
Proof.
  destruct l as [|c [|c' l]]; simpl; split; intros Heq; by inversion Heq.
Qed.

Lemma single_filter (P : E → Prop) `{!∀ z, Decision (P z)} l z :
  NoDup l →
  single (filter P l) = Some z ↔
  (z ∈ l ∧ P z) ∧ ∀ z', z' ∈ l → P z' → z' = z.
Proof.
  intros Hnd. rewrite single_Some.
  assert (Hnd' : NoDup (filter P l)) by by apply NoDup_filter.
  assert (Hin : ∀ c, c ∈ filter P l ↔ c ∈ l ∧ P c).
  { intros c. rewrite list_elem_of_filter. tauto. }
  revert Hnd' Hin. generalize (filter P l). intros cs Hnd' Hin. split.
  - intros ->. split; [apply Hin; left|].
    intros z' ? ?. apply list_elem_of_singleton, Hin. done.
  - intros [Hz Huniq]. apply Hin in Hz.
    assert (Hall : ∀ c, c ∈ cs → c = z).
    { intros c Hc. apply Hin in Hc as [? ?]. by apply Huniq. }
    destruct cs as [|c1 cs]; [by apply elem_of_nil in Hz|].
    rewrite (Hall c1) in * by left.
    destruct cs as [|c2 cs]; [done|].
    rewrite (Hall c2) in Hnd' by (right; left).
    apply NoDup_cons in Hnd' as [Hn _]. exfalso. apply Hn. left.
Qed.

(** The shape shared by [upper_bound] and [lower_bound]: filter the
    elements by [pU], keep those related by [pR] to every survivor, and
    return the survivor when there is exactly one. *)
Lemma bound_query_spec (pU : E → outcome bool) (pR : E → E → outcome bool)
    (inU : E → bool) (rel : E → E → bool) els :
  (∀ z, pU z = Ret (inU z)) → (∀ u z, pR u z = Ret (rel u z)) →
  NoDup els →
  ∃ r, (bounds ← filterM pU els;
        candidates ← filterM (λ z, allM (λ u, pR u z) bounds) bounds;
        Ret (single candidates)) = Ret r
     ∧ ∀ z, r = Some z ↔
         (z ∈ els ∧ inU z = true
          ∧ ∀ u, u ∈ els → inU u = true → rel u z = true)
         ∧ ∀ z', z' ∈ els ∧ inU z' = true
                 ∧ (∀ u, u ∈ els → inU u = true → rel u z' = true) → z' = z.
Proof.
  intros HU HR Hnd.
  rewrite (filterM_pure pU inU) by done. simpl.
  set (bounds := filter (λ z, inU z = true) els).
  rewrite (filterM_pure _
             (λ z, bool_decide (Forall (λ u, rel u z = true) bounds))).
  2:{ intros z. by apply allM_pure. }
  simpl. eexists. split; [done|]. intros z.
  assert (Hb : ∀ c, c ∈ bounds ↔ c ∈ els ∧ inU c = true).
  { intros c. unfold bounds. rewrite list_elem_of_filter. tauto. }
  assert (Hall : ∀ c, bool_decide (Forall (λ u, rel u c = true) bounds) = true
                      ↔ ∀ u, u ∈ els → inU u = true → rel u c = true).
  { intros c. rewrite bool_decide_eq_true, Forall_forall. split.
    - intros Hf u ? ?. apply Hf, Hb. done.
    - intros Hf u [? ?]%Hb. by apply Hf. }
  rewrite single_filter by by apply NoDup_filter.
  rewrite Hb, Hall. split.
  - intros [[[? ?] ?] Huniq]. split; [done|].
    intros z' (? & ? & ?). apply Huniq; [by apply Hb|by apply Hall].
  - intros [(? & ? & ?) Huniq]. split; [done|].
    intros z' Hz' Hf. apply Hb in Hz' as [? ?]. apply Huniq.
    split_and!; [done..|]. by apply (Hall z').
Qed.

Lemma has_path_Ret_true (self : Poset E) x y :
  has_path self x y = Ret true ↔ reachable self x y = true.
Proof.
  rewrite has_path_reachable. split; [by intros [= ->]|by intros ->].
Qed.

Lemma has_path_and (self : Poset E) x y z w :
  (hx ← has_path self x z; if (hx : bool) then has_path self y w else Ret false)
  = Ret (reachable self x z && reachable self y w).
Proof.
  rewrite !has_path_reachable. simpl. by destruct (reachable self x z).
Qed.

(** C2: for a poset whose element list has no duplicates, [upper_bound]
    and [lower_bound] return without raising; the result is the one
    candidate of the specification when exactly one exists, and [None]
    otherwise. *)
Theorem C2_bounds_total_and_unique (self : Poset E) x y :
  NoDup (elements self) →
  (∃ r, upper_bound self x y = Ret r
        ∧ ∀ z, r = Some z ↔
            upper_candidate self x y z
            ∧ ∀ z', upper_candidate self x y z' → z' = z)
  ∧ (∃ r, lower_bound self x y = Ret r
          ∧ ∀ z, r = Some z ↔
              lower_candidate self x y z
              ∧ ∀ z', lower_candidate self x y z' → z' = z).
Proof.
  intros Hnd. split.
  - destruct (bound_query_spec
      (λ z, hx ← has_path self x z;
            if (hx : bool) then has_path self y z else Ret false)
      (λ u z, has_path self u z)
      (λ z, reachable self x z && reachable self y z)
      (λ u z, reachable self u z) (elements self)) as (r & Hr & Hspec);
      [intros w; apply (has_path_and self x y w w)
      |intros; apply has_path_reachable|done|].
    exists r. split; [exact Hr|]. intros z. rewrite Hspec.
    unfold upper_candidate, common_upper.
    setoid_rewrite has_path_Ret_true. setoid_rewrite andb_true_iff.
    split.
    + intros [(? & [? ?] & Hall) Huniq]. split.
      * split; [done|]. intros u (? & ? & ?). by apply Hall.
      * intros z' [(? & ? & ?) Hall']. apply Huniq.
        split_and!; try done. intros u ? [? ?]. by apply Hall'.
    + intros [[(? & ? & ?) Hall] Huniq]. split.
      * split_and!; try done. intros u ? [? ?]. by apply Hall.
      * intros z' (? & [? ?] & Hall'). apply Huniq.
        split; [done|]. intros u (? & ? & ?). by apply Hall'.
  - destruct (bound_query_spec
      (λ z, hx ← has_path self z x;
            if (hx : bool) then has_path self z y else Ret false)
      (λ u z, has_path self z u)
      (λ z, reachable self z x && reachable self z y)
      (λ u z, reachable self z u) (elements self)) as (r & Hr & Hspec);
      [intros w; apply (has_path_and self w w x y)
      |intros; apply has_path_reachable|done|].
    exists r. split; [exact Hr|]. intros z. rewrite Hspec.
    unfold lower_candidate, common_lower.
    setoid_rewrite has_path_Ret_true. setoid_rewrite andb_true_iff.
    split.
    + intros [(? & [? ?] & Hall) Huniq]. split.
      * split; [done|]. intros u (? & ? & ?). by apply Hall.
      * intros z' [(? & ? & ?) Hall']. apply Huniq.
        split_and!; try done. intros u ? [? ?]. by apply Hall'.
    + intros [[(? & ? & ?) Hall] Huniq]. split.
      * split_and!; try done. intros u ? [? ?]. by apply Hall.
      * intros z' (? & [? ?] & Hall'). apply Huniq.
        split; [done|]. intros u (? & ? & ?). by apply Hall'.
Qed.

End bounds.

(** ** Dictionaries built by a comprehension *)

Section dictionaries.
Context {E : Type} `{Countable E} {V : Type}.

(** [{elem: c for elem in els}] has the elements as keys, all bound to [c]. *)
Lemma lookup_const_dict (c : V) (els : list E) (x : E) :
  (list_to_map ((λ elem, (elem, c)) <$> els) : gmap E V) !! x
  = if decide (x ∈ els) then Some c else None.
Proof.
  induction els as [|e els IH].
  - destruct (decide (x ∈ [])) as [Hin|_]; [by apply elem_of_nil in Hin|].
    apply lookup_empty.
  - rewrite fmap_cons. cbn [list_to_map foldr].
    destruct (decide (e = x)) as [->|Hne].
    + rewrite lookup_insert_eq.
      destruct (decide (x ∈ x :: els)) as [_|Hin]; [done|].
      destruct Hin. left.
    + rewrite lookup_insert_ne by done. rewrite IH.
      destruct (decide (x ∈ els)) as [Hin|Hin];
        destruct (decide (x ∈ e :: els)) as [Hin'|Hin']; try done.
      * destruct Hin'. by right.
      * apply elem_of_cons in Hin' as [?|?]; congruence.
Qed.

End dictionaries.

(** ** Rank assignment *)

Section ranks.
Context {E : Type} `{Countable E}.
Implicit Types (es hs : list (E * E)) (lv : gmap E Z) (els : list E).
Implicit Types (a b u v x : E).

Lemma relax_pass_ret hs es lv changed lv' changed' :
  (∀ p, p ∈ es → p ∈ hs) →
  relax_pass es lv changed = Ret (lv', changed') →
  same_keys lv lv'
  ∧ (∀ x m, lv !! x = Some m → ∃ m', lv' !! x = Some m' ∧ m ≤ m')
  ∧ (∀ a b la, (a, b) ∈ es → lv !! a = Some la →
       ∃ lb', lv' !! b = Some lb' ∧ la < lb')
  ∧ (ranked hs lv → ranked hs lv')
  ∧ (changed' = false → changed = false ∧ lv' = lv ∧ strict es lv)
  ∧ (∀ a b, (a, b) ∈ es → is_Some (lv !! a) ∧ is_Some (lv !! b)).
Proof.
  revert lv changed.
  induction es as [|[a b] es IH]; intros lv changed Hsub; simpl.
  - intros [= <- <-]. split_and!; try done.
    + intros x m ?. exists m. split; [done|lia].
    + intros a b la Hin. by apply elem_of_nil in Hin.
    + intros ->. split_and!; try done. intros a b Hin. by apply elem_of_nil in Hin.
    + intros a b Hin. by apply elem_of_nil in Hin.
  - assert (Hsub' : ∀ p, p ∈ es → p ∈ hs) by (intros; apply Hsub; by right).
    assert (Hab : (a, b) ∈ hs) by (apply Hsub; left).
    unfold getitem.
    destruct (lv !! b) as [lb|] eqn:Hb; simpl; [|done].
    destruct (lv !! a) as [la|] eqn:Ha; simpl; [|done].
    case_bool_decide as Hle; intros Hpass.
    + apply IH in Hpass as (I1 & I2 & I3 & I4 & I5 & I6); [|done].
      assert (Hkeys : ∀ x, is_Some (<[b:=la + 1]> lv !! x) ↔ is_Some (lv !! x)).
      { intros x. destruct (decide (b = x)) as [<-|].
        - rewrite lookup_insert_eq, Hb. split; eauto.
        - by rewrite lookup_insert_ne. }
      split_and!.
      * intros x. unfold same_keys in I1. by rewrite I1.
      * intros x m Hx. destruct (decide (b = x)) as [<-|Hne].
        -- destruct (I2 b (la + 1)) as (m' & ? & ?); [by rewrite lookup_insert_eq|].
           exists m'. split; [done|]. rewrite Hb in Hx. injection Hx as <-. lia.
        -- apply I2. by rewrite lookup_insert_ne.
      * intros a' b' la' Hin Ha'. apply elem_of_cons in Hin as [Heq|Hin].
        -- inversion Heq; subst a' b'. rewrite Ha in Ha'. injection Ha' as <-.
           destruct (I2 b (la + 1)) as (m' & ? & ?); [by rewrite lookup_insert_eq|].
           exists m'. split; [done|lia].
        -- destruct (decide (b = a')) as [<-|Hne].
           ++ destruct (I3 b b' (la + 1) Hin) as (m' & ? & ?);
                [by rewrite lookup_insert_eq|].
              exists m'. split; [done|]. rewrite Hb in Ha'. injection Ha' as <-. lia.
           ++ apply (I3 a'); [done|]. by rewrite lookup_insert_ne.
      * intros Hr. apply I4. intros v m Hv.
        destruct (decide (b = v)) as [<-|Hne].
        -- rewrite lookup_insert_eq in Hv. injection Hv as <-.
           destruct (Hr a la Ha) as [Hla (u & Hu)]. split; [lia|].
           exists u. replace (Z.to_nat (la + 1)) with (S (Z.to_nat la)) by lia.
           eapply nsteps_r; [done|exact Hab].
        -- rewrite lookup_insert_ne in Hv by done. by apply Hr.
      * intros ->. by destruct I5 as [? _].
      * intros a' b' Hin. apply elem_of_cons in Hin as [Heq|Hin].
        -- inversion Heq; subst a' b'. rewrite Ha, Hb. eauto.
        -- rewrite <- !Hkeys. by apply I6.
    + apply IH in Hpass as (I1 & I2 & I3 & I4 & I5 & I6); [|done].
      split_and!; try done.
      * intros a' b' la' Hin Ha'. apply elem_of_cons in Hin as [Heq|Hin].
        -- inversion Heq; subst a' b'. rewrite Ha in Ha'. injection Ha' as <-.
           destruct (I2 b lb Hb) as (m' & ? & ?).
           exists m'. split; [done|lia].
        -- by apply (I3 a').
      * intros ->. destruct I5 as (-> & -> & Hst); [done|].
        split_and!; try done.
        intros a' b' Hin. apply elem_of_cons in Hin as [Heq|Hin]; [|by apply Hst].
        inversion Heq; subst a' b'. exists la, lb. split_and!; [done..|lia].
      * intros a' b' Hin. apply elem_of_cons in Hin as [Heq|Hin]; [|by apply I6].
        inversion Heq; subst a' b'. rewrite Ha, Hb. eauto.
Qed.

Lemma relax_pass_total es lv changed :
  (∀ a b, (a, b) ∈ es → is_Some (lv !! a) ∧ is_Some (lv !! b)) →
  ∃ lv' changed', relax_pass es lv changed = Ret (lv', changed').
Proof.
  revert lv changed.
  induction es as [|[a b] es IH]; intros lv changed Hkeys; simpl; [eauto|].
  destruct (Hkeys a b) as [[la Ha] [lb Hb]]; [left|].
  unfold getitem. rewrite Ha, Hb. simpl.
  case_bool_decide; apply IH; intros a' b' Hin.
  - destruct (Hkeys a' b') as [? ?]; [by right|].
    split.
    + destruct (decide (b = a')) as [<-|]; [by rewrite lookup_insert_eq|].
      by rewrite lookup_insert_ne.
    + destruct (decide (b = b')) as [<-|]; [by rewrite lookup_insert_eq|].
      by rewrite lookup_insert_ne.
  - apply Hkeys. by right.
Qed.

Lemma relax_pass_stable es lv changed :
  strict es lv → relax_pass es lv changed = Ret (lv, changed).
Proof.
  induction es as [|[a b] es IH]; intros Hst; simpl; [done|].
  destruct (Hst a b) as (la & lb & Ha & Hb & Hlt); [left|].
  unfold getitem. rewrite Ha, Hb. simpl.
  rewrite bool_decide_eq_false_2 by lia.
  apply IH. intros a' b' Hin. apply Hst. by right.
Qed.

Lemma relax_pass_outcome es lv changed :
  (∃ r, relax_pass es lv changed = Ret r)
  ∨ relax_pass es lv changed = Raise KeyError.
Proof.
  revert lv changed. induction es as [|[a b] es IH]; intros lv changed; simpl.
  - left. eauto.
  - unfold getitem. destruct (lv !! b); simpl; [|by right].
    destruct (lv !! a); simpl; [|by right].
    case_bool_decide; apply IH.
Qed.

(** A missing endpoint makes the pass raise [KeyError]. *)
Lemma relax_pass_KeyError es lv changed :
  ¬ (∀ a b, (a, b) ∈ es → is_Some (lv !! a) ∧ is_Some (lv !! b)) →
  relax_pass es lv changed = Raise KeyError.
Proof.
  intros Hno. destruct (relax_pass_outcome es lv changed) as [[[lv' c] Hr]|]; [|done].
  exfalso. apply Hno.
  by apply (relax_pass_ret es) in Hr as (_ & _ & _ & _ & _ & ?).
Qed.

Lemma relax_loop_ret hs fuel lv lv' passes :
  relax_loop hs fuel lv = Ret (lv', passes) →
  ranked hs lv →
  same_keys lv lv' ∧ ranked hs lv' ∧ strict hs lv'
  ∧ (1 ≤ passes ≤ fuel)%nat.
Proof.
  revert lv lv' passes.
  induction fuel as [|fuel IH]; intros lv lv' passes; simpl; [done|].
  destruct (relax_pass hs lv false) as [[lv1 changed]| |] eqn:Hpass; simpl; [|done..].
  apply (relax_pass_ret hs) in Hpass as (I1 & _ & _ & I4 & I5 & _); [|done].
  destruct changed.
  - destruct (relax_loop hs fuel lv1) as [[final n]| |] eqn:Hloop; simpl; [|done..].
    intros [= <- <-] Hr.
    apply IH in Hloop as (J1 & J2 & J3 & J4); [|by apply I4].
    split_and!; [|done|done|lia|lia].
    intros x. unfold same_keys in *. by rewrite J1, I1.
  - intros [= <- <-] Hr. destruct I5 as (_ & -> & Hst); [done|].
    split_and!; try done; lia.
Qed.

(** The nodes of a walk, from its start to its end. *)
Lemma nsteps_nodes hs (k : nat) u v :
  nsteps (edge hs) k u v →
  ∃ l : list E,
    length l = S k
    ∧ l !! 0%nat = Some u
    ∧ (∀ (i j : nat) x y, (i < j)%nat → l !! i = Some x → l !! j = Some y →
         tc (edge hs) x y)
    ∧ (∀ x, x ∈ l → x = v ∨ ∃ b, (x, b) ∈ hs).
Proof.
  induction 1 as [x|n x y z Hxy _ (l & Hlen & Hhd & Htc & Hsrc)].
  - exists [x]. split_and!; try done.
    + intros i [|j] ? ? ? ? ?; [lia|done].
    + intros ? ->%list_elem_of_singleton. by left.
  - exists (x :: l). split_and!.
    + simpl. by rewrite Hlen.
    + done.
    + intros i [|j] x' y' Hij Hi Hj; [lia|]. simpl in Hj.
      destruct i as [|i]; simpl in Hi.
      * injection Hi as <-. destruct j as [|j].
        -- rewrite Hhd in Hj. injection Hj as <-. by apply tc_once.
        -- eapply tc_l; [exact Hxy|]. apply (Htc 0%nat (S j)); [lia|done..].
      * apply (Htc i j); [lia|done..].
    + intros x' [->|Hin]%elem_of_cons; [right; by exists y|by apply Hsrc].
Qed.

(** In an acyclic graph over [els] a walk has fewer edges than there are
    elements. *)
Lemma acyclic_walk_bound hs els (k : nat) u v :
  acyclic hs → endpoints_in els hs →
  nsteps (edge hs) k u v → v ∈ els → (S k ≤ length els)%nat.
Proof.
  intros Hacyc Hends Hwalk Hv.
  destruct (nsteps_nodes hs k u v Hwalk) as (l & <- & _ & Htc & Hsrc).
  apply submseteq_length, NoDup_submseteq.
  - apply NoDup_alt. intros i j x Hi Hj.
    destruct (Nat.lt_trichotomy i j) as [Hlt|[->|Hlt]]; [|done|].
    + destruct (Hacyc x). by apply (Htc i j).
    + destruct (Hacyc x). by apply (Htc j i).
  - intros x [->|[b Hb]]%Hsrc; [done|]. by apply (Hends x b).
Qed.

Lemma covers_step hs (k : nat) lv lv' changed changed' :
  covers hs k lv → ranked hs lv' →
  relax_pass hs lv changed = Ret (lv', changed') →
  covers hs (S k) lv'.
Proof.
  intros Hcov Hr Hpass.
  apply (relax_pass_ret hs) in Hpass as (_ & _ & I3 & _ & _ & I6); [|done].
  intros v [|j] u m Hj Hwalk Hv.
  - destruct (Hr v m Hv). lia.
  - apply nsteps_inv_r in Hwalk as (a & Hwalk & Hav).
    destruct (I6 a v Hav) as [[la Ha] _].
    assert (Z.of_nat j ≤ la) by (apply (Hcov a j u); [lia|done..]).
    destruct (I3 a v la Hav Ha) as (lb' & Hlb & ?).
    rewrite Hv in Hlb. injection Hlb as <-. lia.
Qed.

Lemma relax_loop_bound hs els (d k : nat) lv :
  acyclic hs → endpoints_in els hs →
  (∀ x, is_Some (lv !! x) ↔ x ∈ els) →
  ranked hs lv → covers hs k lv →
  (length els - 1 ≤ k + d)%nat →
  ∃ lv' passes,
    (passes ≤ S d)%nat
    ∧ ∀ fuel, (passes ≤ fuel)%nat → relax_loop hs fuel lv = Ret (lv', passes).
Proof.
  intros Hacyc Hends. revert k lv.
  induction d as [|d IH]; intros k lv Hkeys Hr Hcov Hk.
  - (* every pass so far changed something: the ranks are now stable *)
    assert (Hst : strict hs lv).
    { intros a b Hab. destruct (Hends a b Hab) as [Ha Hb].
      apply Hkeys in Ha as [la Ha]. apply Hkeys in Hb as [lb Hlb].
      exists la, lb. split_and!; [done..|].
      destruct (Hr a la Ha) as [Hla (u & Hwalk)].
      assert (Hwalk' : nsteps (edge hs) (S (Z.to_nat la)) u b)
        by (eapply nsteps_r; [exact Hwalk|exact Hab]).
      assert (S (S (Z.to_nat la)) ≤ length els)%nat.
      { eapply acyclic_walk_bound; [done..|]. by apply (Hends a b). }
      assert (Z.of_nat (S (Z.to_nat la)) ≤ lb)
        by (apply (Hcov b _ u); [lia|done..]).
      lia. }
    exists lv, 1%nat. split; [lia|]. intros [|fuel] ?; [lia|]. simpl.
    by rewrite relax_pass_stable.
  - destruct (relax_pass_total hs lv false) as (lv1 & changed & Hpass).
    { intros a b Hab. destruct (Hends a b Hab). split; by apply Hkeys. }
    pose proof Hpass as Hpass'.
    apply (relax_pass_ret hs) in Hpass' as (I1 & _ & _ & I4 & _ & _); [|done].
    destruct changed.
    + destruct (IH (S k) lv1) as (lv' & passes & Hle & Hrun).
      * intros x. unfold same_keys in I1. by rewrite I1.
      * by apply I4.
      * eapply covers_step; [done|by apply I4|done].
      * lia.
      * exists lv', (S passes). split; [lia|].
        intros [|fuel] ?; [lia|]. simpl. rewrite Hpass. simpl.
        rewrite Hrun by lia. done.
    + exists lv1, 1%nat. split; [lia|]. intros [|fuel] ?; [lia|]. simpl.
      by rewrite Hpass.
Qed.

Lemma all_zero_lookup els x :
  all_zero els !! x = if decide (x ∈ els) then Some 0 else None.
Proof. apply lookup_const_dict. Qed.

Lemma all_zero_keys els x : is_Some (all_zero els !! x) ↔ x ∈ els.
Proof.
  rewrite all_zero_lookup. case_decide; split; try done; by intros [? ?].
Qed.

Lemma all_zero_ranked hs els : ranked hs (all_zero els).
Proof.
  intros v m. rewrite all_zero_lookup. case_decide; [|done].
  intros [= <-]. split; [done|]. exists v. constructor.
Qed.

Lemma all_zero_covers hs els : covers hs 0 (all_zero els).
Proof.
  intros v j u m Hj _. rewrite all_zero_lookup. case_decide; [|done].
  intros [= <-]. lia.
Qed.

Lemma relax_loop_terminates hs els :
  acyclic hs → endpoints_in els hs →
  ∃ lv passes,
    (passes ≤ Nat.max 1 (length els))%nat
    ∧ ∀ fuel, (passes ≤ fuel)%nat →
        relax_loop hs fuel (all_zero els) = Ret (lv, passes).
Proof.
  intros Hacyc Hends.
  destruct (relax_loop_bound hs els (length els - 1) 0 (all_zero els))
    as (lv & passes & Hle & Hrun);
    [done|done|apply all_zero_keys|apply all_zero_ranked
    |apply all_zero_covers|lia|].
  exists lv, passes. split; [lia|done].
Qed.

(** C6 (amended): over an acyclic covering-edge list whose endpoints are
    elements, the relaxation loop of [assign_levels] returns, and the
    number of passes it makes is at most [max 1 |elements|]: at most
    [|elements|] when there is an element, and one pass when there is none. *)
Theorem C6_relaxation_terminates_within_bound hs els :
  acyclic hs → endpoints_in els hs →
  ∃ lv passes,
    (passes ≤ Nat.max 1 (length els))%nat
    ∧ ∀ fuel, (passes ≤ fuel)%nat →
        relax_loop hs fuel (all_zero els) = Ret (lv, passes).
Proof. apply relax_loop_terminates. Qed.

(** *** Rank groups *)

Lemma group_step_spec (groups : gmap Z (list E)) elem level e k :
  in_bucket (group_step groups elem level) e k ↔
  in_bucket groups e k ∨ (e = elem ∧ k = level).
Proof.
  unfold group_step, in_bucket.
  destruct (decide (level = k)) as [->|Hne].
  - rewrite lookup_alter_eq. destruct (groups !! k) as [bucket|] eqn:Hk.
    + rewrite Hk. simpl. split.
      * intros (? & [= <-] & [?|Hin]%elem_of_app); [eauto|].
        apply list_elem_of_singleton in Hin as ->. by right.
      * intros [(? & [= <-] & ?)|[-> _]]; eexists; (split; [done|]);
          apply elem_of_app; [by left|right; left].
    + rewrite lookup_insert_eq. simpl. split.
      * intros (? & [= <-] & Hin).
        apply list_elem_of_singleton in Hin as ->. by right.
      * intros [(? & ? & _)|[-> _]]; [done|]. eexists. split; [done|left].
  - rewrite lookup_alter_ne by done.
    destruct (groups !! level); [|rewrite lookup_insert_ne by done];
      (split; [by left|intros [?|[_ ?]]; [done|congruence]]).
Qed.

Lemma group_levels_spec keys lv e k :
  in_bucket (group_levels keys lv) e k ↔ e ∈ keys ∧ lv !! e = Some k.
Proof.
  unfold group_levels.
  assert (Hgen : ∀ groups,
    in_bucket (foldl (λ groups elem,
                 match lv !! elem with
                 | Some level => group_step groups elem level
                 | None => groups
                 end) groups keys) e k
    ↔ in_bucket groups e k ∨ (e ∈ keys ∧ lv !! e = Some k)).
  { induction keys as [|elem keys IH]; intros groups; simpl.
    - split; [by left|]. intros [?|[Hin _]]; [done|]. by apply elem_of_nil in Hin.
    - rewrite IH. destruct (lv !! elem) as [level|] eqn:Hl.
      + rewrite group_step_spec. split.
        * intros [[?|[-> ->]]|[? ?]]; [by left| |].
          -- right. split; [left|done].
          -- right. split; [by right|done].
        * intros [?|[Hin Hk]]; [by left; left|].
          apply elem_of_cons in Hin as [->|?]; [|by right].
          left; right. split; [done|congruence].
      + split.
        * intros [?|[? ?]]; [by left|]. right. split; [by right|done].
        * intros [?|[Hin Hk]]; [by left|].
          apply elem_of_cons in Hin as [->|?]; [congruence|by right]. }
  rewrite Hgen. split; [|by right].
  intros [(? & Hemp & _)|?]; [|done]. by rewrite lookup_empty in Hemp.
Qed.

Lemma elem_of_dict_keys els e : e ∈ dict_keys els ↔ e ∈ els.
Proof.
  induction els as [|elem els IH]; simpl; [done|].
  rewrite !elem_of_cons, list_elem_of_filter, IH. split.
  - intros [?|[_ ?]]; [by left|by right].
  - intros [?|?]; [by left|].
    destruct (decide (e = elem)); [by left|by right].
Qed.

(** What a returning [assign_levels] leaves in the object. *)
Lemma assign_levels_ret (self self' : Poset E) fuel :
  assign_levels self fuel = Ret self' →
  elements self' = elements self
  ∧ hasse_relations self' = hasse_relations self
  ∧ ∃ lv,
      (∀ e k, has_rank self' e k ↔ e ∈ elements self ∧ lv !! e = Some k)
      ∧ (∀ x, is_Some (lv !! x) ↔ x ∈ elements self)
      ∧ ranked (hasse_relations self) lv
      ∧ strict (hasse_relations self) lv.
Proof.
  unfold assign_levels.
  destruct (relax_loop _ _ _) as [[lv passes]| |] eqn:Hloop; simpl; [|done..].
  intros [= <-]. simpl. split; [done|]. split; [done|].
  apply relax_loop_ret in Hloop as (Hkeys & Hr & Hst & _);
    [|apply all_zero_ranked].
  exists lv. split_and!; try done.
  - intros e k. unfold has_rank. simpl.
    fold (in_bucket (group_levels (dict_keys (elements self)) lv) e k).
    by rewrite group_levels_spec, elem_of_dict_keys.
  - intros x. unfold same_keys in Hkeys. by rewrite Hkeys, all_zero_keys.
Qed.

Lemma new_ret (depth : nat) els rels (self : Poset E) :
  new depth els rels = Ret self →
  check_for_cycles (build_hasse_diagram (mkPoset els rels [] ∅)) depth
  = Ret false
  ∧ assign_levels (build_hasse_diagram (mkPoset els rels [] ∅)) (S (length els))
    = Ret self.
Proof.
  unfold new, init.
  destruct (check_for_cycles _ _) as [[|]| |]; simpl; try done.
  destruct (assign_levels _ _) as [self'| |] eqn:Hassign; simpl; [|done..].
  intros [= <-]. done.
Qed.

(** C5: in a constructed poset every element has a rank, ranks are
    non-negative integers, and the rank strictly increases along every
    covering edge. *)
Theorem C5_ranks_strictly_increase (depth : nat) els rels (self : Poset E) :
  new depth els rels = Ret self →
  (∀ e, e ∈ elements self → ∃ k, has_rank self e k)
  ∧ (∀ e k, has_rank self e k → 0 ≤ k)
  ∧ (∀ e k k', has_rank self e k → has_rank self e k' → k = k')
  ∧ (∀ a b, (a, b) ∈ hasse_relations self →
       ∃ ka kb, has_rank self a ka ∧ has_rank self b kb ∧ ka < kb)
  ∧ (∀ a b ka kb, (a, b) ∈ hasse_relations self →
       has_rank self a ka → has_rank self b kb → ka < kb).
Proof.
  intros [_ Hassign]%new_ret.
  apply assign_levels_ret in Hassign
    as (Hels & Hhs & lv & Hrank & Hkeys & Hr & Hst).
  rewrite Hels, Hhs.
  assert (Hedge : ∀ a b, (a, b) ∈ hasse_relations
                    (build_hasse_diagram (mkPoset els rels [] ∅)) →
            ∃ ka kb, has_rank self a ka ∧ has_rank self b kb ∧ ka < kb).
  { intros a b Hab. destruct (Hst a b Hab) as (la & lb & Ha & Hb & Hlt).
    exists la, lb. rewrite !Hrank. split_and!; try done.
    - apply Hkeys. by rewrite Ha.
    - apply Hkeys. by rewrite Hb. }
  split_and!.
  - intros e He. destruct (proj2 (Hkeys e) He) as [k Hk].
    exists k. by apply Hrank.
  - intros e k [_ Hk]%Hrank. by destruct (Hr e k Hk).
  - intros e k k' [_ Hk]%Hrank [_ Hk']%Hrank. congruence.
  - done.
  - intros a b ka kb Hab [_ Ha]%Hrank [_ Hb]%Hrank.
    destruct (Hst a b Hab) as (la & lb & Ha' & Hb' & Hlt). congruence.
Qed.

End ranks.

(** ** Cycle detection *)

Section cycle_detection.
Context {E : Type} `{Countable E}.
Variables (self : Poset E) (els : list E).
Implicit Types (m : marks (E:=E)) (x u v a b g : E).

(** Within this section the invariants are read at [self] and [els]. *)
Local Abbreviation hs := (hasse_relations self).
Local Abbreviation marks_wf := (marks_wf els).
Local Abbreviation closed := (closed self).
Local Abbreviation nocyc := (nocyc self).
Local Abbreviation good := (good self els).
Local Abbreviation targets_in := (targets_in self els).
Local Abbreviation white_count := (white_count els).
Local Abbreviation dfs_post := (dfs_post self els).
Local Abbreviation loop_post := (loop_post self els).

Lemma filter_length_mono (P Q : E → Prop)
    `{!∀ x, Decision (P x)} `{!∀ x, Decision (Q x)} (l : list E) :
  (∀ x, P x → Q x) → (length (filter P l) ≤ length (filter Q l))%nat.
Proof.
  intros HPQ. induction l as [|x l IH]; [done|].
  rewrite !filter_cons.
  destruct (decide (P x)) as [HP|]; destruct (decide (Q x)) as [|HQ];
    simpl; try lia.
  destruct HQ. by apply HPQ.
Qed.

Lemma filter_length_lt (P Q : E → Prop)
    `{!∀ x, Decision (P x)} `{!∀ x, Decision (Q x)} (l : list E) v :
  (∀ x, P x → Q x) → v ∈ l → Q v → ¬ P v →
  (length (filter P l) < length (filter Q l))%nat.
Proof.
  intros HPQ Hin HQ HP. induction l as [|x l IH].
  { by apply elem_of_nil in Hin. }
  pose proof (filter_length_mono P Q l HPQ) as Hmono.
  rewrite !filter_cons. apply elem_of_cons in Hin as [<-|Hin].
  - rewrite (decide_False (P:=P v)) by done.
    rewrite (decide_True (P:=Q v)) by done. simpl. lia.
  - specialize (IH Hin).
    destruct (decide (P x)); destruct (decide (Q x)) as [|HQ']; simpl; try lia.
    destruct HQ'. by apply HPQ.
Qed.

Lemma white_count_mono m m' :
  (∀ x, vis m x → vis m' x) → (white_count m' ≤ white_count m)%nat.
Proof.
  intros Hmono. apply filter_length_mono. intros x Hx Hv. by apply Hx, Hmono.
Qed.

Lemma white_count_lt m m' v :
  (∀ x, vis m x → vis m' x) → v ∈ els → ¬ vis m v → vis m' v →
  (white_count m' < white_count m)%nat.
Proof.
  intros Hmono Hin Hw Hv. apply (filter_length_lt _ _ els v); try done.
  - intros x Hx Hvx. by apply Hx, Hmono.
  - intros Hn. by apply Hn.
Qed.

Lemma white_count_le_length m : (white_count m ≤ length els)%nat.
Proof. apply length_filter. Qed.

Lemma black_closed_reach m x y :
  closed m → rtc (edge hs) x y → black m x → black m y.
Proof. intros Hcl Hr. induction Hr; eauto. Qed.

Lemma tc_first_step x y :
  tc (edge hs) x y → ∃ b, edge hs x b ∧ rtc (edge hs) b y.
Proof.
  intros Htc. destruct Htc as [x y Hxy|x b y Hxb Hby].
  - exists y. split; [done|apply rtc_refl].
  - exists b. split; [done|by apply tc_rtc].
Qed.

Lemma loop_post_weaken (d : nat) m m1 v (es es' : list (E * E)) o :
  loop_post d m1 v es' o →
  (∀ x, vis m x → vis m1 x) →
  (∀ x, onstk m1 x ↔ onstk m x) →
  (∀ b, (v, b) ∈ es → (v, b) ∈ es' ∨ black m1 b) →
  loop_post d m v es o.
Proof.
  intros Hpost Hv Hs Hsucc.
  destruct o as [[[|] m']|[| |]|]; simpl in *; try done.
  - destruct Hpost as (Hg & Hv' & Hs' & Hb). split_and!; [done|auto| |].
    + intros x. by rewrite Hs', Hs.
    + intros b [?|[Hbv Hbs]]%Hsucc; [by apply Hb|].
      split; [by apply Hv'|]. by rewrite Hs'.
  - pose proof (white_count_mono m m1 Hv). lia.
Qed.

(** The loop of [dfs] over the edge list, given that the recursive calls
    behave. *)
Lemma dfs_edges_spec (rec : E → marks → outcome (bool * marks)) (d : nat) :
  (∀ m v, good m → v ∈ els → ¬ vis m v →
          (∀ g, onstk m g → rtc (edge hs) g v) →
          dfs_post d m v (rec v m)) →
  ∀ es m v,
    (∀ p, p ∈ es → p ∈ hs) →
    good m → vis m v → onstk m v →
    (∀ g, onstk m g → rtc (edge hs) g v) →
    loop_post d m v es (dfs_edges rec v es m).
Proof.
  intros Hrec es. induction es as [|[a b] es IH];
    intros m v Hsub Hgood Hv Hs Hgray; simpl.
  - split_and!; try done. intros b Hb. by apply elem_of_nil in Hb.
  - assert (Hsub' : ∀ p, p ∈ es → p ∈ hs) by (intros; apply Hsub; by right).
    assert (Hab : (a, b) ∈ hs) by (apply Hsub; left).
    destruct Hgood as (Hwf & Hcl & Hnc). pose proof Hwf as (Hk1 & Hk2 & Hsv).
    destruct (decide (a = v)) as [->|Hne].
    + unfold getitem. destruct (m.1 !! b) as [[|]|] eqn:Hvb; simpl.
      * (* [b] is visited *)
        destruct (m.2 !! b) as [[|]|] eqn:Hsb; simpl.
        -- (* and on the stack: a cycle through [v] *)
           exists v. eapply tc_rtc_r; [by apply tc_once|]. by apply Hgray.
        -- eapply loop_post_weaken; [by apply IH|done|done|].
           intros b' [Heq|?]%elem_of_cons; [|by left].
           injection Heq as ->. right. split; [done|]. unfold onstk. congruence.
        -- exfalso. assert (is_Some (m.2 !! b)) as [? ?]; [|congruence].
           apply Hk2, Hk1. by rewrite Hvb.
      * (* [b] is unvisited: recursive call *)
        assert (Hb : b ∈ els) by (apply Hk1; by rewrite Hvb).
        assert (Hpost : dfs_post d m b (rec b m)).
        { apply Hrec; try done.
          - unfold vis. congruence.
          - intros g Hg. eapply rtc_r; [by apply Hgray|done]. }
        destruct (rec b m) as [[[|] m1]|[| |]|]; simpl in *; try done.
        destruct Hpost as (Hg1 & Hv1 & Hs1 & Hb1).
        eapply loop_post_weaken; [apply IH| | |]; try done.
        -- by apply Hv1.
        -- by apply Hs1.
        -- intros g Hg. apply Hgray. by apply Hs1.
        -- intros b' [Heq|?]%elem_of_cons; [|by left].
           injection Heq as ->. by right.
      * (* [b] is not a key *)
        intros Ht. specialize (Ht v b Hab). apply Hk1 in Ht as [? ?]. congruence.
    + eapply loop_post_weaken; [by apply IH|done|done|].
      intros b' [Heq|?]%elem_of_cons; [|by left]. congruence.
Qed.

Lemma dfs_spec (depth : nat) m v :
  good m → v ∈ els → ¬ vis m v →
  (∀ g, onstk m g → rtc (edge hs) g v) →
  dfs_post depth m v (dfs self depth v m).
Proof.
  revert m v. induction depth as [|fuel IH]; intros m v Hgood Hin Hw Hgray.
  { simpl.
    assert (white_count (<[v:=true]> m.1, m.2) < white_count m)%nat; [|lia].
    apply (white_count_lt m _ v); try done.
    - intros x Hx. unfold vis in *. simpl.
      destruct (decide (v = x)) as [->|]; [by rewrite lookup_insert_eq|].
      by rewrite lookup_insert_ne.
    - unfold vis. simpl. by rewrite lookup_insert_eq. }
  simpl. set (m0 := (<[v:=true]> m.1, <[v:=true]> m.2)).
  destruct Hgood as (Hwf & Hcl & Hnc). pose proof Hwf as (Hk1 & Hk2 & Hsv).
  assert (Hv0 : ∀ x, vis m0 x ↔ x = v ∨ vis m x).
  { intros x. unfold vis, m0. simpl. destruct (decide (v = x)) as [->|].
    - rewrite lookup_insert_eq. split; [by left|done].
    - rewrite lookup_insert_ne by done. split; [by right|]. by intros [->|?]. }
  assert (Hs0 : ∀ x, onstk m0 x ↔ x = v ∨ onstk m x).
  { intros x. unfold onstk, m0. simpl. destruct (decide (v = x)) as [->|].
    - rewrite lookup_insert_eq. split; [by left|done].
    - rewrite lookup_insert_ne by done. split; [by right|]. by intros [->|?]. }
  assert (Hnos : ¬ onstk m v) by (intros ?; by apply Hw, Hsv).
  assert (Hb0 : ∀ x, black m0 x ↔ black m x).
  { intros x. unfold black. rewrite Hv0, Hs0. split.
    - intros [[->|?] Hn]; [destruct Hn; by left|]. split; [done|]. intros ?.
      apply Hn. by right.
    - intros [? Hn]. split; [by right|]. intros [->|?]; [by apply Hw|done]. }
  assert (Hgood0 : good m0).
  { split_and!.
    - split_and!.
      + intros x. unfold m0. simpl. destruct (decide (v = x)) as [->|].
        * rewrite lookup_insert_eq. split; [done|eauto].
        * by rewrite lookup_insert_ne.
      + intros x. unfold m0. simpl. destruct (decide (v = x)) as [->|].
        * rewrite lookup_insert_eq. split; [done|eauto].
        * by rewrite lookup_insert_ne.
      + intros x. rewrite Hv0, Hs0. intros [?|?]; [by left|right; by apply Hsv].
    - intros u b. rewrite !Hb0. apply Hcl.
    - intros u. rewrite Hb0. apply Hnc. }
  assert (Hlt : (white_count m0 < white_count m)%nat).
  { apply (white_count_lt m m0 v); try done.
    - intros x ?. apply Hv0. by right.
    - apply Hv0. by left. }
  assert (Hloop : loop_post fuel m0 v hs (dfs_edges (dfs self fuel) v hs m0)).
  { apply (dfs_edges_spec (dfs self fuel) fuel); try done.
    - apply Hv0. by left.
    - apply Hs0. by left.
    - intros g [->|?]%Hs0; [done|by apply Hgray]. }
  destruct (dfs_edges _ _ _ _) as [[[|] m']|[| |]|]; simpl in *; try done;
    [|lia].
  destruct Hloop as ((Hwf' & Hcl' & Hnc') & Hv' & Hs' & Hsucc).
  pose proof Hwf' as (Hk1' & Hk2' & Hsv').
  assert (Hvm' : vis m' v) by (apply Hv', Hv0; by left).
  assert (Hsm' : onstk m' v) by (apply Hs', Hs0; by left).
  set (m2 := (m'.1, <[v:=false]> m'.2)).
  assert (Hs2 : ∀ x, onstk m2 x ↔ x ≠ v ∧ onstk m' x).
  { intros x. unfold onstk, m2. simpl. destruct (decide (v = x)) as [->|].
    - rewrite lookup_insert_eq. split; [done|]. by intros [? _].
    - rewrite lookup_insert_ne by done. split; [done|]. by intros [_ ?]. }
  assert (Hb2 : ∀ x, black m2 x ↔ x = v ∨ black m' x).
  { intros x. unfold black. rewrite Hs2. change (vis m2 x) with (vis m' x). split.
    - intros [? Hn]. destruct (decide (x = v)) as [->|]; [by left|].
      right. split; [done|]. intros ?. by apply Hn.
    - intros [->|[? Hn]].
      + split; [done|]. by intros [? _].
      + split; [done|]. intros [_ ?]. by apply Hn. }
  split_and!.
  - split_and!.
    + split_and!; [done| |].
      * intros x. unfold m2. simpl. destruct (decide (v = x)) as [->|].
        -- rewrite lookup_insert_eq. split; [done|eauto].
        -- by rewrite lookup_insert_ne.
      * intros x [_ ?]%Hs2. by apply Hsv'.
    + intros u b [->|Hu]%Hb2 Hub; apply Hb2; right.
      * by apply Hsucc.
      * by eapply Hcl'.
    + intros u [->|Hu]%Hb2; [|by apply Hnc'].
      intros (b & Hvb & Hbv)%tc_first_step.
      assert (Hbl : black m' v).
      { eapply black_closed_reach; [done..|]. by apply Hsucc. }
      by destruct Hbl as [_ ?].
  - intros x ?. apply Hv', Hv0. by right.
  - intros x. rewrite Hs2, Hs', Hs0. split.
    + intros [? [?|?]]; done.
    + intros ?. split; [by intros ->|by right].
  - apply Hb2. by left.
Qed.

Lemma check_roots_spec (depth : nat) (roots : list E) m :
  (∀ r, r ∈ roots → r ∈ els) →
  good m → (∀ x, ¬ onstk m x) →
  match check_roots self depth roots m with
  | Ret true => has_cycle hs
  | Ret false =>
      ∃ m', good m' ∧ (∀ x, ¬ onstk m' x) ∧ (∀ x, vis m x → vis m' x)
            ∧ (∀ r, r ∈ roots → vis m' r)
  | Raise KeyError => ¬ targets_in
  | Raise RecursionError => (depth < length els)%nat
  | _ => False
  end.
Proof.
  revert m. induction roots as [|elem roots IH];
    intros m Hroots Hgood Hns; simpl.
  - exists m. split_and!; try done. intros r Hr. by apply elem_of_nil in Hr.
  - assert (Hroots' : ∀ r, r ∈ roots → r ∈ els) by (intros; apply Hroots; by right).
    assert (Hin : elem ∈ els) by (apply Hroots; left).
    pose proof Hgood as ((Hk1 & _ & _) & _ & _).
    unfold getitem. destruct (m.1 !! elem) as [[|]|] eqn:Hv; simpl.
    + specialize (IH m Hroots' Hgood Hns).
      destruct (check_roots self depth roots m) as [[|]|[| |]|]; try done.
      destruct IH as (m' & ? & ? & Hmono & Hall).
      exists m'. split_and!; try done.
      intros r [->|?]%elem_of_cons; [by apply Hmono|by apply Hall].
    + assert (Hpost : dfs_post depth m elem (dfs self depth elem m)).
      { apply dfs_spec; try done.
        - unfold vis. congruence.
        - intros g Hg. by destruct (Hns g). }
      destruct (dfs self depth elem m) as [[[|] m1]|[| |]|]; simpl in *;
        try done.
      * destruct Hpost as (Hg1 & Hv1 & Hs1 & Hb1).
        specialize (IH m1 Hroots' Hg1).
        destruct (check_roots self depth roots m1) as [[|]|[| |]|];
          try (apply IH; intros x ?%Hs1; by eapply Hns).
        destruct IH as (m' & ? & ? & Hmono & Hall);
          [intros x ?%Hs1; by eapply Hns|].
        exists m'. split_and!; try done.
        -- intros x ?. by apply Hmono, Hv1.
        -- intros r [->|?]%elem_of_cons; [|by apply Hall].
           apply Hmono. by destruct Hb1.
      * pose proof (white_count_le_length m). lia.
    + apply Hk1 in Hin as [? ?]. congruence.
Qed.

End cycle_detection.

(** ** Construction *)

Section construction.
Context {E : Type} `{Countable E}.
Implicit Types (self : Poset E) (els : list E) (rels : list (E * E)).

Lemma all_false_lookup els (x : E) :
  all_false els !! x = if decide (x ∈ els) then Some false else None.
Proof. apply lookup_const_dict. Qed.

Lemma all_false_good self :
  good self (elements self)
       (all_false (elements self), all_false (elements self))
  ∧ ∀ x, ¬ onstk (all_false (elements self), all_false (elements self)) x.
Proof.
  assert (Hnv : ∀ (d : gmap E bool) x,
            d = all_false (elements self) → d !! x ≠ Some true).
  { intros d x ->. rewrite all_false_lookup. by case_decide. }
  assert (Hk : ∀ x, is_Some (all_false (elements self) !! x) ↔ x ∈ elements self).
  { intros x. rewrite all_false_lookup.
    case_decide; split; try done; by intros [? ?]. }
  split; [|intros x; by apply Hnv].
  split_and!.
  - split_and!; [done..|]. intros x Hx. by apply Hnv in Hx.
  - intros u b [Hu _]. by apply Hnv in Hu.
  - intros u [Hu _]. by apply Hnv in Hu.
Qed.

Lemma check_for_cycles_spec self (depth : nat) :
  match check_for_cycles self depth with
  | Ret true => has_cycle (hasse_relations self)
  | Ret false =>
      ∀ x, x ∈ elements self → ¬ tc (edge (hasse_relations self)) x x
  | Raise KeyError => ¬ targets_in self (elements self)
  | Raise RecursionError => (depth < length (elements self))%nat
  | _ => False
  end.
Proof.
  unfold check_for_cycles. destruct (all_false_good self) as [Hgood Hns].
  pose proof (check_roots_spec self (elements self) depth
                (elements self) _ (λ r Hr, Hr) Hgood Hns) as Hspec.
  destruct (check_roots _ _ _ _) as [[|]|[| |]|]; try done.
  destruct Hspec as (m' & (_ & _ & Hnc) & Hns' & _ & Hall).
  intros x Hx. apply Hnc. split; [by apply Hall|apply Hns'].
Qed.

(** A negative answer of the detector, with every endpoint among the
    elements, means that the covering edges hold no cycle. *)
Lemma check_false_acyclic self (depth : nat) :
  endpoints_in (elements self) (hasse_relations self) →
  check_for_cycles self depth = Ret false → acyclic (hasse_relations self).
Proof.
  intros Hends Hc x Hx. pose proof (check_for_cycles_spec self depth) as Hspec.
  rewrite Hc in Hspec. apply (Hspec x); [|done].
  destruct (tc_first_step self _ _ Hx) as (b & Hxb & _).
  by apply (Hends x b).
Qed.

(** With every endpoint among the elements and as many nested calls
    allowed as there are elements, the detector answers, and answers
    whether the covering edges hold a cycle. *)
Lemma check_for_cycles_decides self (depth : nat) :
  endpoints_in (elements self) (hasse_relations self) →
  (length (elements self) ≤ depth)%nat →
  (check_for_cycles self depth = Ret true ∧ has_cycle (hasse_relations self))
  ∨ (check_for_cycles self depth = Ret false
     ∧ acyclic (hasse_relations self)).
Proof.
  intros Hends Hdepth. pose proof (check_for_cycles_spec self depth) as Hspec.
  pose proof (check_false_acyclic self depth Hends) as Hacyc.
  destruct (check_for_cycles self depth) as [[|]|[| |]|]; try done.
  - by left.
  - right. split; [done|]. by apply Hacyc.
  - destruct Hspec. intros a b Hab. by apply (Hends a b).
  - lia.
Qed.

Lemma relax_loop_raises_KeyError (hs : list (E * E)) fuel lv e :
  relax_loop hs fuel lv = Raise e → e = KeyError.
Proof.
  revert lv. induction fuel as [|fuel IH]; intros lv; simpl; [done|].
  destruct (relax_pass_outcome hs lv false) as [[[lv1 changed] ->]| ->];
    simpl; [|by intros [= <-]].
  destruct changed; [|done].
  specialize (IH lv1). destruct (relax_loop hs fuel lv1) as [[? ?]|e'|];
    simpl; [done| |done].
  intros [= <-]. by apply IH.
Qed.

Lemma relax_loop_not_ValueError (hs : list (E * E)) fuel lv :
  relax_loop hs fuel lv ≠ Raise ValueError.
Proof. by intros ?%relax_loop_raises_KeyError. Qed.

Lemma assign_levels_raises_KeyError self fuel e :
  assign_levels self fuel = Raise e → e = KeyError.
Proof.
  unfold assign_levels.
  pose proof (relax_loop_raises_KeyError (hasse_relations self) fuel
                (all_zero (elements self))) as Hk.
  destruct (relax_loop _ _ _) as [[? ?]|e'|]; simpl; [done| |done].
  intros [= <-]. by apply Hk.
Qed.

Lemma assign_levels_not_ValueError self fuel :
  assign_levels self fuel ≠ Raise ValueError.
Proof. by intros ?%assign_levels_raises_KeyError. Qed.

(** Once the detector has found no cycle, the relaxation loop stops within
    its budget of passes: it returns, or raises [KeyError] in its first
    pass. *)
Lemma assign_levels_in_budget self (depth : nat) :
  check_for_cycles self depth = Ret false →
  assign_levels self (S (length (elements self))) ≠ OutOfFuel.
Proof.
  intros Hcheck. unfold assign_levels.
  destruct (decide (Forall (λ p, p.1 ∈ elements self ∧ p.2 ∈ elements self)
                      (hasse_relations self))) as [Hends|Hends].
  - assert (Hends' : endpoints_in (elements self) (hasse_relations self)).
    { intros a b Hab. rewrite Forall_forall in Hends. apply (Hends (a, b) Hab). }
    pose proof (check_false_acyclic self depth Hends' Hcheck) as Hacyc.
    destruct (relax_loop_terminates _ _ Hacyc Hends')
      as (lv & passes & Hle & Hrun).
    rewrite Hrun by lia. done.
  - simpl. rewrite relax_pass_KeyError; [done|].
    intros Hkeys. apply Hends, Forall_forall. intros [a b] Hab.
    destruct (Hkeys a b Hab) as [Ha Hb].
    by rewrite !all_zero_keys in Ha, Hb.
Qed.

(** The constructor always comes to an end. *)
Lemma new_terminates (depth : nat) els rels : new depth els rels ≠ OutOfFuel.
Proof.
  unfold new, init.
  pose proof (check_for_cycles_spec
                (build_hasse_diagram (mkPoset els rels [] ∅)) depth) as Hspec.
  destruct (check_for_cycles _ _) as [[|]|[| |]|] eqn:Hcheck; try done.
  pose proof (assign_levels_in_budget _ _ Hcheck) as Hassign. simpl in Hassign.
  by destruct (assign_levels _ _).
Qed.

Lemma endpoints_in_Forall els (es : list (E * E)) :
  Forall (λ p, p.1 ∈ els ∧ p.2 ∈ els) es → endpoints_in els es.
Proof. rewrite Forall_forall. intros Hall a b Hab. apply (Hall (a, b) Hab). Qed.

Lemma endpoints_in_build els rels :
  endpoints_in els rels →
  endpoints_in els (hasse_relations (build_hasse_diagram (mkPoset els rels [] ∅))).
Proof.
  intros Hends a b Hab. apply Hends.
  by apply build_hasse_diagram_subset in Hab.
Qed.

(** *** More nested calls allowed *)

(** A call that does not hit the recursion limit ends the same way when
    more nested calls are allowed. *)
Lemma dfs_edges_mono (rec rec' : E → marks → outcome (bool * marks)) :
  (∀ v m r, rec v m = r → r ≠ Raise RecursionError → rec' v m = r) →
  ∀ es v m r, dfs_edges rec v es m = r → r ≠ Raise RecursionError →
              dfs_edges rec' v es m = r.
Proof.
  intros Hrec es. induction es as [|[a b] es IH]; intros v m r; simpl; [done|].
  destruct (decide (a = v)) as [->|]; [|apply IH].
  destruct (getitem m.1 b) as [[|]| |]; simpl; try done.
  - destruct (getitem m.2 b) as [[|]| |]; simpl; try done. apply IH.
  - destruct (rec b m) as [[[|] m1]|e|] eqn:Hb; simpl.
    + intros <- _. by rewrite (Hrec b m _ Hb).
    + intros Hr Hne. rewrite (Hrec b m _ Hb) by done. simpl. by apply IH.
    + intros <- Hne. rewrite (Hrec b m _ Hb); [done|]. by intros [= ->].
    + intros <- _. by rewrite (Hrec b m _ Hb).
Qed.

Lemma dfs_mono self (d d' : nat) v (m : marks) r :
  (d ≤ d')%nat → dfs self d v m = r → r ≠ Raise RecursionError →
  dfs self d' v m = r.
Proof.
  revert d' v m r. induction d as [|d IH]; intros d' v m r Hle; simpl.
  { by intros <-. }
  destruct d' as [|d']; [lia|]. simpl.
  destruct (dfs_edges (dfs self d) v _ _) as [[found m1]|e|] eqn:Hloop; simpl.
  - intros <- _.
    rewrite (dfs_edges_mono (dfs self d) (dfs self d')
               (λ v m r, IH d' v m r ltac:(lia)) _ _ _ _ Hloop); done.
  - intros <- Hne.
    rewrite (dfs_edges_mono (dfs self d) (dfs self d')
               (λ v m r, IH d' v m r ltac:(lia)) _ _ _ _ Hloop); [done|].
    by intros [= ->].
  - intros <- _.
    rewrite (dfs_edges_mono (dfs self d) (dfs self d')
               (λ v m r, IH d' v m r ltac:(lia)) _ _ _ _ Hloop); done.
Qed.

Lemma check_roots_mono self (d d' : nat) (roots : list E) (m : marks) r :
  (d ≤ d')%nat → check_roots self d roots m = r → r ≠ Raise RecursionError →
  check_roots self d' roots m = r.
Proof.
  intros Hle. revert m r. induction roots as [|elem roots IH]; intros m r;
    simpl; [done|].
  destruct (getitem m.1 elem) as [[|]| |]; simpl; try done; [apply IH|].
  destruct (dfs self d elem m) as [[[|] m1]|e|] eqn:Hdfs; simpl.
  - intros <- _. by rewrite (dfs_mono self d d' _ _ _ Hle Hdfs).
  - intros Hr Hne. rewrite (dfs_mono self d d' _ _ _ Hle Hdfs) by done.
    simpl. by apply IH.
  - intros <- Hne. rewrite (dfs_mono self d d' _ _ _ Hle Hdfs); [done|].
    by intros [= ->].
  - intros <- _. by rewrite (dfs_mono self d d' _ _ _ Hle Hdfs).
Qed.

Lemma check_for_cycles_mono self (d d' : nat) r :
  (d ≤ d')%nat → check_for_cycles self d = r → r ≠ Raise RecursionError →
  check_for_cycles self d' = r.
Proof. apply check_roots_mono. Qed.

Lemma new_mono (d d' : nat) els rels r :
  (d ≤ d')%nat → new d els rels = r → r ≠ Raise RecursionError →
  new d' els rels = r.
Proof.
  intros Hle. unfold new, init.
  set (self := build_hasse_diagram (mkPoset els rels [] ∅)).
  destruct (check_for_cycles self d) as [[|]|e|] eqn:Hcheck.
  - intros <- _. by rewrite (check_for_cycles_mono self d d' _ Hle Hcheck).
  - intros Hr _. by rewrite (check_for_cycles_mono self d d' _ Hle Hcheck).
  - intros <- Hne.
    rewrite (check_for_cycles_mono self d d' _ Hle Hcheck); [done|].
    by intros [= ->].
  - intros <- _. by rewrite (check_for_cycles_mono self d d' _ Hle Hcheck).
Qed.

(** The traversal looks at the covering edges only. *)
Lemma dfs_edges_ext (rec rec' : E → marks → outcome (bool * marks)) v es m :
  (∀ v m, rec v m = rec' v m) → dfs_edges rec v es m = dfs_edges rec' v es m.
Proof.
  intros Hrec. revert m. induction es as [|[a b] es IH]; intros m; simpl; [done|].
  destruct (decide (a = v)); [|done].
  destruct (getitem m.1 b) as [[|]| |]; simpl; try done.
  - destruct (getitem m.2 b) as [[|]| |]; simpl; done.
  - rewrite Hrec. destruct (rec' b m) as [[[|] m1]|e0|]; simpl; done.
Qed.

Lemma check_for_cycles_same_graph self self' (depth : nat) :
  elements self = elements self' →
  hasse_relations self = hasse_relations self' →
  check_for_cycles self depth = check_for_cycles self' depth.
Proof.
  intros Hels Hhs.
  assert (Hdfs : ∀ d v m, dfs self d v m = dfs self' d v m).
  { induction d as [|d IH]; intros v m; simpl; [done|].
    rewrite Hhs. by rewrite (dfs_edges_ext _ (dfs self' d)). }
  assert (Hroots : ∀ roots m,
            check_roots self depth roots m = check_roots self' depth roots m).
  { induction roots as [|root roots IH]; intros m; simpl; [done|].
    destruct (getitem m.1 root) as [[|]| |]; simpl; [apply IH| |done..].
    rewrite Hdfs.
    destruct (dfs self' depth root m) as [[[|] m1]|e0|]; simpl; [done| |done..].
    apply IH. }
  unfold check_for_cycles. rewrite Hels. apply Hroots.
Qed.

End construction.

(** ** The cycle error *)

Section cycle_error.
Context {E : Type} `{Countable E}.
Implicit Types (self : Poset E) (els : list E) (rels : list (E * E)).

Lemma cycle_error_means_cycle (depth : nat) els rels :
  new depth els rels = Raise ValueError →
  check_for_cycles (build_hasse_diagram (mkPoset els rels [] ∅)) depth
  = Ret true
  ∧ has_cycle (hasse_relations (build_hasse_diagram (mkPoset els rels [] ∅))).
Proof.
  set (self := build_hasse_diagram (mkPoset els rels [] ∅)).
  pose proof (assign_levels_not_ValueError self (S (length els))) as Hne.
  pose proof (check_for_cycles_spec self depth) as Hspec.
  unfold new, init. fold self.
  destruct (check_for_cycles self depth) as [[|]|[| |]|]; try done.
  by destruct (assign_levels self (S (length els))) as [?|[| |]|].
Qed.

Lemma cycle_raises (depth : nat) els rels :
  endpoints_in els rels →
  has_cycle (hasse_relations (build_hasse_diagram (mkPoset els rels [] ∅))) →
  new depth els rels = Raise ValueError
  ∨ (new depth els rels = Raise RecursionError ∧ (depth < length els)%nat).
Proof.
  intros Hends%endpoints_in_build [x Hx].
  set (self := build_hasse_diagram (mkPoset els rels [] ∅)) in *.
  pose proof (check_for_cycles_spec self depth) as Hspec.
  pose proof (check_false_acyclic self depth Hends) as Hacyc.
  unfold new, init. fold self.
  destruct (check_for_cycles self depth) as [[|]|[| |]|]; try done.
  - by left.
  - by destruct (Hacyc eq_refl x).
  - destruct Hspec. intros a b Hab. by apply (Hends a b).
  - by right.
Qed.

(** C3 (amended): when every endpoint of a relation is an element and the
    interpreter allows at least as many nested calls of [dfs] as there are
    elements, construction raises the cycle error exactly when the covering
    edges hold a directed cycle. With fewer nested calls allowed a cycle
    makes construction raise the cycle error or [RecursionError]. Whenever
    the cycle error is raised the covering edges hold a cycle, the
    constructor has stopped on the object that [build_hasse_diagram] left,
    whose [levels] is still empty, and the caller gets no object. The
    three-element cycle fails with the cycle error once three nested calls
    are allowed. *)
Theorem C3_cycle_error_iff_cycle (depth : nat) els rels :
  endpoints_in els rels →
  ((length els ≤ depth)%nat →
     (new depth els rels = Raise ValueError ↔
        has_cycle
          (hasse_relations (build_hasse_diagram (mkPoset els rels [] ∅)))))
  ∧ (has_cycle (hasse_relations (build_hasse_diagram (mkPoset els rels [] ∅))) →
       new depth els rels = Raise ValueError
       ∨ new depth els rels = Raise RecursionError)
  ∧ (new depth els rels = Raise ValueError →
       has_cycle (hasse_relations (build_hasse_diagram (mkPoset els rels [] ∅)))
       ∧ init depth els rels
         = (build_hasse_diagram (mkPoset els rels [] ∅), Raise ValueError)
       ∧ levels (init depth els rels).1 = ∅)
  ∧ (∀ d, (3 ≤ d)%nat →
       new d scenario_b_elements scenario_b_relations = Raise ValueError).
Proof.
  intros Hends. split_and!.
  - intros Hdepth. split; [by intros [_ ?]%cycle_error_means_cycle|].
    intros Hcyc. destruct (cycle_raises depth els rels Hends Hcyc) as [?|[_ ?]];
      [done|lia].
  - intros Hcyc. destruct (cycle_raises depth els rels Hends Hcyc) as [?|[? _]];
      auto.
  - intros [Hcheck Hcyc]%cycle_error_means_cycle. split; [done|].
    unfold init. by rewrite Hcheck.
  - intros d Hd. apply (new_mono 3 d); [done| |done]. by vm_compute.
Qed.

End cycle_error.

(** ** A cycle longer than the recursion limit *)

(** The ring of [n] elements [0 → 1 → … → n-1 → 0]: its covering edges are
    its raw relations, they hold a cycle, and the first call of [dfs] goes
    down one element per nested call. *)

Lemma elem_of_ring_elements (n : nat) (x : Z) :
  x ∈ ring_elements n ↔ ∃ i : nat, x = Z.of_nat i ∧ (i < n)%nat.
Proof.
  unfold ring_elements. rewrite list_elem_of_fmap. split.
  - intros (i & -> & Hi%elem_of_seq). exists i. split; [done|lia].
  - intros (i & -> & Hi). exists i. split; [done|]. apply elem_of_seq. lia.
Qed.

Lemma elem_of_ring_relations (n : nat) (a b : Z) :
  (a, b) ∈ ring_relations n ↔
  (∃ i : nat, (S i < n)%nat ∧ a = Z.of_nat i ∧ b = Z.of_nat (S i))
  ∨ (a = Z.of_nat (n - 1) ∧ b = 0).
Proof.
  unfold ring_relations.
  rewrite elem_of_app, list_elem_of_fmap, list_elem_of_singleton. split.
  - intros [(i & Heq & Hi%elem_of_seq)|Heq]; injection Heq as -> ->;
      [left|by right].
    exists i. split; [lia|done].
  - intros [(i & Hi & -> & ->)|[-> ->]]; [left|by right].
    exists i. split; [done|]. apply elem_of_seq. lia.
Qed.

Lemma ring_endpoints (n : nat) :
  (1 ≤ n)%nat → endpoints_in (ring_elements n) (ring_relations n).
Proof.
  intros Hn a b [(i & Hi & -> & ->)|[-> ->]]%elem_of_ring_relations;
    rewrite !elem_of_ring_elements.
  - split; [exists i|exists (S i)]; split; (done || lia).
  - split; [exists (n - 1)%nat|exists 0%nat]; split; (done || lia).
Qed.

Lemma ring_reduced (n : nat) :
  (2 ≤ n)%nat →
  hasse_relations
    (build_hasse_diagram (mkPoset (ring_elements n) (ring_relations n) [] ∅))
  = ring_relations n.
Proof.
  intros Hn. rewrite hasse_relations_build. simpl.
  apply filter_all. intros [a d] _ [Had (b & Hab & Hbd)]%shortcut_iff.
  apply elem_of_ring_relations in Had, Hab, Hbd.
  destruct Had as [(i & ? & ? & ?)|[? ?]], Hab as [(j & ? & ? & ?)|[? ?]],
    Hbd as [(k & ? & ? & ?)|[? ?]]; lia.
Qed.

Lemma ring_has_cycle (n : nat) :
  (1 ≤ n)%nat → has_cycle (ring_relations n).
Proof.
  intros Hn. exists 0.
  assert (Hreach : ∀ k : nat, (k < n)%nat →
            rtc (edge (ring_relations n)) 0 (Z.of_nat k)).
  { induction k as [|k IH]; intros Hk; [done|].
    apply (rtc_r _ (Z.of_nat k)); [apply IH; lia|].
    apply elem_of_ring_relations. left. by exists k. }
  apply (tc_rtc_l _ (Z.of_nat (n - 1))); [apply Hreach; lia|].
  apply tc_once, elem_of_ring_relations. by right.
Qed.

(** In the loop of [dfs] over a node with one successor, an unvisited one,
    what the nested call raises is what the loop raises. *)
Lemma dfs_edges_unique_successor
    (rec : Z → marks → outcome (bool * marks)) (v b : Z) es (m : marks) e :
  (v, b) ∈ es → (∀ b', (v, b') ∈ es → b' = b) →
  m.1 !! b = Some false → rec b m = Raise e →
  dfs_edges rec v es m = Raise e.
Proof.
  intros Hin Huniq Hb Hrec.
  induction es as [|[a b'] es IH]; [by apply elem_of_nil in Hin|].
  simpl. destruct (decide (a = v)) as [->|Hne].
  - rewrite (Huniq b') by left. unfold getitem. rewrite Hb. simpl.
    by rewrite Hrec.
  - apply IH.
    + apply elem_of_cons in Hin as [[= -> ->]|Hin]; [done|exact Hin].
    + intros b'' Hb''. apply Huniq. by right.
Qed.

Lemma ring_dfs_overflow (self : Poset Z) (n depth i : nat) (m : marks) :
  hasse_relations self = ring_relations n →
  (i + depth < n)%nat →
  (∀ j : nat, (i < j < n)%nat → m.1 !! Z.of_nat j = Some false) →
  dfs self depth (Z.of_nat i) m = Raise RecursionError.
Proof.
  intros Hhs. revert i m.
  induction depth as [|depth IH]; intros i m Hi Hm; simpl; [done|].
  rewrite Hhs.
  rewrite (dfs_edges_unique_successor _ (Z.of_nat i) (Z.of_nat (S i))
             _ _ RecursionError); [done| | | |].
  - apply elem_of_ring_relations. left. exists i. split; [lia|done].
  - intros b' [(j & ? & ? & ->)|[? ->]]%elem_of_ring_relations; lia.
  - simpl. rewrite lookup_insert_ne by lia. apply Hm. lia.
  - apply IH; [lia|]. intros j Hj. simpl.
    rewrite lookup_insert_ne by lia. apply Hm. lia.
Qed.

Lemma ring_overflows (n depth : nat) :
  (2 ≤ n)%nat → (depth < n)%nat →
  new depth (ring_elements n) (ring_relations n) = Raise RecursionError.
Proof.
  intros Hn Hdepth. unfold new, init.
  set (self := build_hasse_diagram
                 (mkPoset (ring_elements n) (ring_relations n) [] ∅)).
  assert (Hcheck : check_for_cycles self depth = Raise RecursionError);
    [|by rewrite Hcheck].
  unfold check_for_cycles.
  assert (Hels : elements self = Z.of_nat 0 :: (Z.of_nat <$> seq 1 (n - 1))).
  { unfold self. simpl. unfold ring_elements.
    destruct n as [|n]; [lia|]. simpl. by rewrite Nat.sub_0_r. }
  assert (Hfalse : ∀ j : nat, (j < n)%nat →
            all_false (elements self) !! Z.of_nat j = Some false).
  { intros j Hj. rewrite all_false_lookup.
    destruct (decide (Z.of_nat j ∈ elements self)) as [|Hnot]; [done|].
    destruct Hnot. apply elem_of_ring_elements. by exists j. }
  pose proof (ring_dfs_overflow self n depth 0
                (all_false (elements self), all_false (elements self))
                (ring_reduced n Hn)) as Hdfs.
  set (m0 := all_false (elements self)) in *. clearbody m0.
  rewrite Hels. simpl. unfold getitem. rewrite (Hfalse 0%nat) by lia. simpl.
  rewrite Hdfs; [done|lia|]. intros j Hj. simpl. apply Hfalse. lia.
Qed.

(** ** The lattice check *)

Section lattice.
Context {E : Type} `{Countable E} `{Truthy E}.
Implicit Types (self : Poset E) (x y : E).

Lemma upper_bound_returns self x y : ∃ r, upper_bound self x y = Ret r.
Proof.
  unfold upper_bound.
  rewrite (filterM_pure _ (λ z, reachable self x z && reachable self y z))
    by (intros w; apply (has_path_and self x y w w)).
  simpl.
  rewrite (filterM_pure _ (λ z, bool_decide (Forall (λ u,
             reachable self u z = true)
             (filter (λ z, reachable self x z && reachable self y z = true)
                     (elements self))))).
  2:{ intros z. apply allM_pure. intros u. apply has_path_reachable. }
  simpl. eauto.
Qed.

Lemma lower_bound_returns self x y : ∃ r, lower_bound self x y = Ret r.
Proof.
  unfold lower_bound.
  rewrite (filterM_pure _ (λ z, reachable self z x && reachable self z y))
    by (intros w; apply (has_path_and self w w x y)).
  simpl.
  rewrite (filterM_pure _ (λ z, bool_decide (Forall (λ u,
             reachable self z u = true)
             (filter (λ z, reachable self z x && reachable self z y = true)
                     (elements self))))).
  2:{ intros z. apply allM_pure. intros u. apply has_path_reachable. }
  simpl. eauto.
Qed.

(** What [is_lattice] computes: it answers [true] exactly when, for every
    pair, both bounds are elements that Python counts as true. *)
Lemma is_lattice_spec self :
  ∃ r, is_lattice self = Ret r
       ∧ (r = true ↔
          ∀ x y, (x, y) ∈ combinations2 (elements self) →
            ∃ ub lb, upper_bound self x y = Ret (Some ub) ∧ truthy ub = true
                     ∧ lower_bound self x y = Ret (Some lb) ∧ truthy lb = true).
Proof.
  unfold is_lattice. generalize (combinations2 (elements self)). intros pairs.
  induction pairs as [|[x y] pairs (r & Hr & IH)]; simpl.
  - exists true. split; [done|]. split; [|done].
    intros _ x y Hin. by apply elem_of_nil in Hin.
  - destruct (upper_bound_returns self x y) as [ub Hub].
    destruct (lower_bound_returns self x y) as [lb Hlb].
    rewrite Hub. simpl.
    destruct (py_not ub) eqn:Hnub.
    { exists false. split; [done|]. split; [done|]. intros Hall.
      destruct (Hall x y) as (ub' & lb' & Hub' & Ht & _); [left|].
      rewrite Hub in Hub'. injection Hub' as ->. simpl in Hnub.
      by rewrite Ht in Hnub. }
    rewrite Hlb. simpl.
    destruct (py_not lb) eqn:Hnlb.
    { exists false. split; [done|]. split; [done|]. intros Hall.
      destruct (Hall x y) as (ub' & lb' & _ & _ & Hlb' & Ht); [left|].
      rewrite Hlb in Hlb'. injection Hlb' as ->. simpl in Hnlb.
      by rewrite Ht in Hnlb. }
    exists r. split; [done|]. rewrite IH. split.
    + intros Hall x' y' [Heq|?]%elem_of_cons; [|by apply Hall].
      injection Heq as -> ->.
      destruct ub as [ub|]; [|done]. destruct lb as [lb|]; [|done].
      exists ub, lb. simpl in *. split_and!; try done.
      * by destruct (truthy ub).
      * by destruct (truthy lb).
    + intros Hall x' y' ?. apply Hall. by right.
Qed.

End lattice.

(** C8: on the module-level example construction succeeds and the covering
    edges are the raw relations without the pair [(1, 4)], which the chains
    through [2], [3] and [6] make a shortcut. *)
Theorem C8_scenario_a_reduction (depth : nat) :
  (4 ≤ depth)%nat →
  ∃ self, new depth scenario_a_elements scenario_a_relations = Ret self
    ∧ hasse_relations self = filter (λ p, p ≠ (1, 4)) scenario_a_relations
    ∧ hasse_relations self
      = [(1,2); (1,3); (1,6); (2,4); (3,4); (5,1); (6,4); (1,7); (4,8); (4,9)]
    ∧ (∀ b, b ∈ [2; 3; 6] →
         (1, b) ∈ scenario_a_relations ∧ (b, 4) ∈ scenario_a_relations).
Proof.
  intros Hdepth. eexists.
  split; [apply (new_mono 4 depth); [done|vm_compute; reflexivity|done]|].
  split; [vm_compute; reflexivity|]. split; [reflexivity|].
  intros b Hb. unfold scenario_a_relations.
  repeat (apply elem_of_cons in Hb as [->|Hb]; [split; set_solver|]).
  by apply elem_of_nil in Hb.
Qed.

(** C9: there is an input whose raw relations hold [(a, b)], [(b, c)],
    [(c, d)] and [(a, d)] and no two-hop chain from [a] to [d]; the pair
    [(a, d)] is still a covering edge after reduction although the three
    covering edges of the chain imply it. *)
Theorem C9_three_hop_shortcut_survives (depth : nat) :
  (4 ≤ depth)%nat →
  ∃ (els : list Z) (rels : list (Z * Z)) (a b c d : Z) (self : Poset Z),
    new depth els rels = Ret self
    ∧ (a, b) ∈ rels ∧ (b, c) ∈ rels ∧ (c, d) ∈ rels ∧ (a, d) ∈ rels
    ∧ (¬ ∃ x, (a, x) ∈ rels ∧ (x, d) ∈ rels)
    ∧ (a, b) ∈ hasse_relations self ∧ (b, c) ∈ hasse_relations self
    ∧ (c, d) ∈ hasse_relations self
    ∧ (a, d) ∈ hasse_relations self.
Proof.
  intros Hdepth. exists chain3_elements, chain3_relations, 1, 2, 3, 4.
  eexists.
  split; [apply (new_mono 4 depth); [done|vm_compute; reflexivity|done]|]. simpl.
  unfold chain3_relations.
  split_and!; try (by repeat first [by left | right]).
  intros (x & H1 & H2).
  repeat (apply elem_of_cons in H1 as [H1|H1]; [inversion H1; subst; clear H1|]);
    try (by apply elem_of_nil in H1);
    repeat (apply elem_of_cons in H2 as [H2|H2]; [by inversion H2|]);
    by apply elem_of_nil in H2.
Qed.

(** C1 (the code at the failing input): for the elements [0] and [1]
    with [1] preceding [0], the only pair is [(0, 1)]; its upper bound is
    the element [0] and its lower bound the element [1], both single
    candidates, and [is_lattice] answers [False]. *)
Theorem C1_is_lattice_false_on_element_zero (depth : nat) :
  (1 ≤ depth)%nat →
  ∃ self, new depth zero_elements zero_relations = Ret self
    ∧ combinations2 (elements self) = [(0, 1)]
    ∧ upper_bound self 0 1 = Ret (Some 0)
    ∧ lower_bound self 0 1 = Ret (Some 1)
    ∧ is_lattice self = Ret false.
Proof.
  intros Hdepth. eexists.
  split; [apply (new_mono 1 depth); [done|vm_compute; reflexivity|done]|].
  split_and!; vm_compute; reflexivity.
Qed.

(** The counterexample to C3 as stated: 1200 elements, each preceding the
    next and the last preceding the first. Every endpoint is an element and
    the covering edges hold a cycle, but the first call of [dfs] nests once
    per element: with 1000 nested calls allowed, which the interpreter's
    default limit of 1000 frames does not exceed, construction raises
    [RecursionError] and not the cycle error. *)
Lemma C3_counterexample_deep_cycle :
  endpoints_in (ring_elements 1200) (ring_relations 1200)
  ∧ has_cycle
      (hasse_relations
         (build_hasse_diagram
            (mkPoset (ring_elements 1200) (ring_relations 1200) [] ∅)))
  ∧ new 1000 (ring_elements 1200) (ring_relations 1200) = Raise RecursionError
  ∧ ¬ (new 1000 (ring_elements 1200) (ring_relations 1200) = Raise ValueError
       ↔ has_cycle
           (hasse_relations
              (build_hasse_diagram
                 (mkPoset (ring_elements 1200) (ring_relations 1200) [] ∅)))).
Proof.
  assert (Hcyc : has_cycle
            (hasse_relations
               (build_hasse_diagram
                  (mkPoset (ring_elements 1200) (ring_relations 1200) [] ∅)))).
  { rewrite ring_reduced by lia. apply ring_has_cycle. lia. }
  assert (Hnew : new 1000 (ring_elements 1200) (ring_relations 1200)
                 = Raise RecursionError).
  { apply ring_overflows; lia. }
  split; [apply ring_endpoints; lia|]. split; [exact Hcyc|].
  split; [exact Hnew|]. intros [_ Hraise]. specialize (Hraise Hcyc).
  rewrite Hnew in Hraise. discriminate Hraise.
Qed.

(** The counterexample to C6 as stated: with no element and no relation
    the loop makes one pass, which is more than the number of elements. *)
Lemma C6_counterexample_no_elements :
  acyclic ([] : list (Z * Z))
  ∧ endpoints_in ([] : list Z) []
  ∧ relax_loop ([] : list (Z * Z)) 1 (all_zero []) = Ret (all_zero [], 1%nat)
  ∧ ¬ ∃ fuel lv passes,
        relax_loop ([] : list (Z * Z)) fuel (all_zero []) = Ret (lv, passes)
        ∧ (passes ≤ length ([] : list Z))%nat.
Proof.
  split_and!.
  - intros x (b & Hxb & _)%(tc_first_step (mkPoset [] [] [] ∅)).
    by apply elem_of_nil in Hxb.
  - intros a b Hab. by apply elem_of_nil in Hab.
  - reflexivity.
  - intros (fuel & lv & passes & Hrun & Hle).
    destruct fuel as [|fuel]; simpl in Hrun; [done|].
    injection Hrun as _ <-. simpl in Hle. lia.
Qed.

(** ** The theorems at work on the scenarios *)

Lemma scenario_a_endpoints :
  endpoints_in scenario_a_elements (hasse_relations scenario_a_poset).
Proof.
  apply endpoints_in_Forall, (bool_decide_unpack _). vm_compute. exact I.
Defined.

Lemma scenario_a_acyclic : acyclic (hasse_relations scenario_a_poset).
Proof.
  destruct (check_for_cycles_decides scenario_a_poset 9 scenario_a_endpoints
              (le_n 9))
    as [[Hc _]|[_ Hacyc]]; [|exact Hacyc].
  vm_compute in Hc. discriminate Hc.
Defined.

Lemma C2_witness_scenario_a :
  NoDup (elements scenario_a_poset)
  ∧ (∃ r, upper_bound scenario_a_poset 2 3 = Ret r
          ∧ ∀ z, r = Some z ↔
              upper_candidate scenario_a_poset 2 3 z
              ∧ ∀ z', upper_candidate scenario_a_poset 2 3 z' → z' = z)
  ∧ (∃ r, lower_bound scenario_a_poset 2 3 = Ret r
          ∧ ∀ z, r = Some z ↔
              lower_candidate scenario_a_poset 2 3 z
              ∧ ∀ z', lower_candidate scenario_a_poset 2 3 z' → z' = z).
Proof.
  assert (Hnd : NoDup (elements scenario_a_poset)).
  { apply (bool_decide_unpack _). vm_compute. exact I. }
  split; [exact Hnd|].
  exact (C2_bounds_total_and_unique scenario_a_poset 2 3 Hnd).
Defined.

Lemma C3_witness_scenario_b :
  endpoints_in scenario_b_elements scenario_b_relations
  ∧ new 3 scenario_b_elements scenario_b_relations = Raise ValueError.
Proof.
  assert (Hends : endpoints_in scenario_b_elements scenario_b_relations).
  { apply endpoints_in_Forall, (bool_decide_unpack _). vm_compute. exact I. }
  split; [exact Hends|].
  apply (proj1 (C3_cycle_error_iff_cycle 3 _ _ Hends) (le_n 3)).
  exists 1. apply (tc_l _ 1 2 1); [|apply (tc_l _ 2 3 1); [|apply (tc_once _ 3 1)]];
    unfold edge; apply (bool_decide_unpack _); vm_compute; exact I.
Defined.

Lemma C5_witness_scenario_a :
  ∃ self, new 4 scenario_a_elements scenario_a_relations = Ret self
    ∧ (∀ a b, (a, b) ∈ hasse_relations self →
         ∃ ka kb, has_rank self a ka ∧ has_rank self b kb ∧ ka < kb).
Proof.
  eexists. split; [vm_compute; reflexivity|].
  apply (C5_ranks_strictly_increase 4 scenario_a_elements scenario_a_relations).
  vm_compute. reflexivity.
Defined.

Lemma C8_witness_default_limit :
  ∃ self, new 1000 scenario_a_elements scenario_a_relations = Ret self
    ∧ hasse_relations self = filter (λ p, p ≠ (1, 4)) scenario_a_relations
    ∧ hasse_relations self
      = [(1,2); (1,3); (1,6); (2,4); (3,4); (5,1); (6,4); (1,7); (4,8); (4,9)]
    ∧ (∀ b, b ∈ [2; 3; 6] →
         (1, b) ∈ scenario_a_relations ∧ (b, 4) ∈ scenario_a_relations).
Proof. apply (C8_scenario_a_reduction 1000). lia. Defined.

Lemma C9_witness_default_limit :
  ∃ (els : list Z) (rels : list (Z * Z)) (a b c d : Z) (self : Poset Z),
    new 1000 els rels = Ret self
    ∧ (a, b) ∈ rels ∧ (b, c) ∈ rels ∧ (c, d) ∈ rels ∧ (a, d) ∈ rels
    ∧ (¬ ∃ x, (a, x) ∈ rels ∧ (x, d) ∈ rels)
    ∧ (a, b) ∈ hasse_relations self ∧ (b, c) ∈ hasse_relations self
    ∧ (c, d) ∈ hasse_relations self
    ∧ (a, d) ∈ hasse_relations self.
Proof. apply (C9_three_hop_shortcut_survives 1000). lia. Defined.

Lemma C1_witness_default_limit :
  ∃ self, new 1000 zero_elements zero_relations = Ret self
    ∧ combinations2 (elements self) = [(0, 1)]
    ∧ upper_bound self 0 1 = Ret (Some 0)
    ∧ lower_bound self 0 1 = Ret (Some 1)
    ∧ is_lattice self = Ret false.
Proof. apply (C1_is_lattice_false_on_element_zero 1000). lia. Defined.

Lemma C6_witness_scenario_a :
  ∃ lv passes,
    (passes ≤ Nat.max 1 (length scenario_a_elements))%nat
    ∧ ∀ fuel, (passes ≤ fuel)%nat →
        relax_loop (hasse_relations scenario_a_poset) fuel
                   (all_zero scenario_a_elements) = Ret (lv, passes).
Proof.
  exact (C6_relaxation_terminates_within_bound _ _
           scenario_a_acyclic scenario_a_endpoints).
Defined.

Lemma C7_witness_scenario_a : has_path scenario_a_poset 5 4 = Ret true.
Proof.
  apply (proj2 (C7_reachability_reflexive_transitive scenario_a_poset) 5 1 4);
    vm_compute; reflexivity.
Defined.

(** * Further properties of the code *)

(** ** What reduction leaves *)

Section reduction_more.
Context {E : Type} `{Countable E}.
Implicit Types (rels : list (E * E)) (a b d x : E) (self : Poset E).

Lemma elem_of_reduced self a d :
  (a, d) ∈ hasse_relations (build_hasse_diagram self) ↔
  (a, d) ∈ relations self
  ∧ ¬ ∃ b, (a, b) ∈ relations self ∧ (b, d) ∈ relations self.
Proof.
  rewrite hasse_relations_build, list_elem_of_filter, shortcut_iff. split.
  - intros [Hn Hin]. split; [done|]. intros Hb. by apply Hn.
  - intros [Hin Hn]. split; [|done]. by intros [_ Hb].
Qed.

(** X1: the covering edges hold no two-hop shortcut of their own, so
    reducing them once more changes nothing. *)
Theorem X1_reduction_is_idempotent self :
  (∀ a b d, (a, b) ∈ hasse_relations (build_hasse_diagram self) →
            (b, d) ∈ hasse_relations (build_hasse_diagram self) →
            (a, d) ∉ hasse_relations (build_hasse_diagram self))
  ∧ hasse_relations
      (build_hasse_diagram
         (mkPoset (elements self)
                  (hasse_relations (build_hasse_diagram self)) [] ∅))
    = hasse_relations (build_hasse_diagram self).
Proof.
  assert (Hno : ∀ a b d, (a, b) ∈ hasse_relations (build_hasse_diagram self) →
            (b, d) ∈ hasse_relations (build_hasse_diagram self) →
            (a, d) ∉ hasse_relations (build_hasse_diagram self)).
  { intros a b d [Hab _]%elem_of_reduced [Hbd _]%elem_of_reduced
           [_ Hn]%elem_of_reduced.
    apply Hn. by exists b. }
  split; [exact Hno|].
  rewrite (hasse_relations_build (mkPoset _ _ _ _)). simpl.
  apply filter_all. intros [a d] Hin [_ (b & Hab & Hbd)]%shortcut_iff.
  by apply (Hno a b d).
Qed.

(** X2: a raw pair of an element with itself is never a covering edge, and
    it takes every raw pair that starts or ends at that element with it. *)
Theorem X2_reflexive_pair_removes_its_neighbours self :
  (∀ a, (a, a) ∉ hasse_relations (build_hasse_diagram self))
  ∧ (∀ a b, (b, b) ∈ relations self →
       ((a, b) ∉ hasse_relations (build_hasse_diagram self))
       ∧ ((b, a) ∉ hasse_relations (build_hasse_diagram self))).
Proof.
  split.
  - intros a [Hin Hn]%elem_of_reduced. apply Hn. by exists a.
  - intros a b Hbb. split.
    + intros [Hin Hn]%elem_of_reduced. apply Hn. by exists b.
    + intros [Hin Hn]%elem_of_reduced. apply Hn. by exists b.
Qed.

Lemma reduced_edge_raw self a b :
  rtc (edge (hasse_relations (build_hasse_diagram self))) a b →
  rtc (edge (relations self)) a b.
Proof.
  apply rtc_subrel. intros x y Hxy. by apply build_hasse_diagram_subset in Hxy.
Qed.

Lemma raw_reachable rels a b :
  reachable (raw_poset rels) a b = true ↔ rtc (edge rels) a b.
Proof. apply reachable_true. Qed.

Lemma span_decreases rels a b d :
  acyclic rels → (a, b) ∈ rels → (b, d) ∈ rels →
  (span rels a b < span rels a d)%nat ∧ (span rels b d < span rels a d)%nat.
Proof.
  intros Hacyc Hab Hbd. unfold span. split.
  - apply (filter_length_lt _ _ _ d).
    + intros x. rewrite !andb_true_iff, !raw_reachable. intros [? ?].
      split; [done|]. by eapply rtc_r.
    + apply elem_of_app. right. by apply (list_elem_of_fmap_2 snd _ (b, d)).
    + rewrite andb_true_iff, !raw_reachable. split; [|done].
      eapply rtc_l; [exact Hab|]. by apply rtc_once.
    + rewrite andb_true_iff, !raw_reachable. intros [_ Hdb].
      apply (Hacyc b). eapply tc_rtc_r; [by apply tc_once|done].
  - apply (filter_length_lt _ _ _ a).
    + intros x. rewrite !andb_true_iff, !raw_reachable. intros [? ?].
      split; [|done]. by eapply rtc_l.
    + apply elem_of_app. left. by apply (list_elem_of_fmap_2 fst _ (a, b)).
    + rewrite andb_true_iff, !raw_reachable. split; [done|].
      eapply rtc_l; [exact Hab|]. by apply rtc_once.
    + rewrite andb_true_iff, !raw_reachable. intros [Hba _].
      apply (Hacyc a). eapply tc_rtc_r; [by apply tc_once|done].
Qed.

Lemma raw_pair_stays_reachable self (n : nat) a d :
  acyclic (relations self) → (span (relations self) a d < n)%nat →
  (a, d) ∈ relations self →
  rtc (edge (hasse_relations (build_hasse_diagram self))) a d.
Proof.
  intros Hacyc. revert a d. induction n as [|n IH]; intros a d Hn Had; [lia|].
  destruct (decide ((a, d) ∈ hasse_relations (build_hasse_diagram self)))
    as [Hin|Hout]; [by apply rtc_once|].
  destruct (decide (shortcut (relations self) (a, d))) as [Hs|Hs].
  - apply shortcut_iff in Hs as [_ (b & Hab & Hbd)].
    destruct (span_decreases _ a b d Hacyc Hab Hbd).
    transitivity b; apply IH; (lia || done).
  - destruct Hout. rewrite hasse_relations_build. by apply list_elem_of_filter.
Qed.

(** X3: when the raw relations hold no cycle, reduction keeps the order:
    one element reaches another along covering edges exactly when it does
    along raw pairs. *)
Theorem X3_reduction_keeps_reachability self a d :
  acyclic (relations self) →
  rtc (edge (hasse_relations (build_hasse_diagram self))) a d
  ↔ rtc (edge (relations self)) a d.
Proof.
  intros Hacyc. split; [apply reduced_edge_raw|].
  induction 1 as [|x y z Hxy _ IH]; [done|].
  transitivity y; [|done].
  by apply (raw_pair_stays_reachable self (S (span (relations self) x y))); [|lia|].
Qed.

End reduction_more.

(** ** How construction ends *)

Section construction_more.
Context {E : Type} `{Countable E}.
Implicit Types (self : Poset E) (els : list E) (rels hs : list (E * E)).
Implicit Types (lv : gmap E Z) (a b e u v : E).

Lemma strict_tc hs lv a b :
  strict hs lv → tc (edge hs) a b →
  ∃ la lb, lv !! a = Some la ∧ lv !! b = Some lb ∧ la < lb.
Proof.
  intros Hst. induction 1 as [x y Hxy|x y z Hxy _ IH]; [by apply Hst|].
  destruct (Hst x y Hxy) as (la & lb & Ha & Hb & ?).
  destruct IH as (lb' & lc & Hb' & Hc & ?).
  exists la, lc. split_and!; [done..|]. rewrite Hb in Hb'. injection Hb' as <-. lia.
Qed.

Lemma strict_acyclic hs lv : strict hs lv → acyclic hs.
Proof.
  intros Hst x Hx. destruct (strict_tc hs lv x x Hst Hx) as (la & lb & Ha & Hb & ?).
  rewrite Ha in Hb. injection Hb as <-. lia.
Qed.

(** Every walk of covering edges is at most as long as the rank of its end. *)
Lemma strict_walk hs lv (j : nat) u v m :
  ranked hs lv → strict hs lv →
  nsteps (edge hs) j u v → lv !! v = Some m → Z.of_nat j ≤ m.
Proof.
  intros Hr Hst. revert v m. induction j as [|j IH]; intros v m Hwalk Hv.
  - destruct (Hr v m Hv). lia.
  - apply nsteps_inv_r in Hwalk as (a & Hwalk & Hav).
    destruct (Hst a v Hav) as (la & lb & Ha & Hb & ?).
    rewrite Hv in Hb. injection Hb as <-.
    specialize (IH a la Hwalk Ha). lia.
Qed.

(** What a returned object holds. *)
Lemma new_ret_parts (depth : nat) els rels self :
  new depth els rels = Ret self →
  elements self = els ∧ relations self = rels
  ∧ hasse_relations self
    = hasse_relations (build_hasse_diagram (mkPoset els rels [] ∅))
  ∧ ∃ lv,
      levels self = group_levels (dict_keys els) lv
      ∧ (∀ e k, has_rank self e k ↔ e ∈ els ∧ lv !! e = Some k)
      ∧ (∀ x, is_Some (lv !! x) ↔ x ∈ els)
      ∧ ranked (hasse_relations self) lv
      ∧ strict (hasse_relations self) lv.
Proof.
  intros [_ Hassign]%new_ret.
  set (self0 := build_hasse_diagram (mkPoset els rels [] ∅)) in *.
  unfold assign_levels in Hassign.
  destruct (relax_loop (hasse_relations self0) (S (length els))
              (all_zero (elements self0))) as [[lv passes]| |] eqn:Hloop;
    [|done..].
  injection Hassign as <-.
  apply relax_loop_ret in Hloop as (Hkeys & Hr & Hst & _);
    [|apply all_zero_ranked].
  split_and!; try done. exists lv. split_and!; try done.
  - intros e k. unfold has_rank. simpl.
    fold (in_bucket (group_levels (dict_keys els) lv) e k).
    by rewrite group_levels_spec, elem_of_dict_keys.
  - intros x. unfold same_keys in Hkeys. by rewrite Hkeys, all_zero_keys.
Qed.

Lemma new_ret_endpoints (depth : nat) els rels self :
  new depth els rels = Ret self →
  endpoints_in els (hasse_relations self) ∧ acyclic (hasse_relations self).
Proof.
  intros (_ & _ & _ & lv & _ & _ & Hkeys & _ & Hst)%new_ret_parts.
  split; [|by eapply strict_acyclic].
  intros a b Hab. destruct (Hst a b Hab) as (la & lb & Ha & Hb & _).
  split; apply Hkeys; eauto.
Qed.

Lemma new_RecursionError (depth : nat) els rels :
  new depth els rels = Raise RecursionError → (depth < length els)%nat.
Proof.
  set (self := build_hasse_diagram (mkPoset els rels [] ∅)).
  pose proof (check_for_cycles_spec self depth) as Hspec.
  pose proof (assign_levels_raises_KeyError self (S (length els))) as Hk.
  unfold new, init. fold self.
  destruct (check_for_cycles self depth) as [[|]|[| |]|]; try done.
  destruct (assign_levels self (S (length els))) as [?|e|]; try done.
  intros [= ->]. by specialize (Hk _ eq_refl).
Qed.

(** X4: construction ends on every input, in one of four ways: it returns
    the object, raises the cycle error, raises [KeyError], or raises
    [RecursionError]; the last cannot happen when the interpreter allows
    as many nested calls of [dfs] as there are elements. *)
Theorem X4_construction_ends (depth : nat) els rels :
  ((∃ self, new depth els rels = Ret self)
   ∨ new depth els rels = Raise ValueError
   ∨ new depth els rels = Raise KeyError
   ∨ new depth els rels = Raise RecursionError)
  ∧ ((length els ≤ depth)%nat → new depth els rels ≠ Raise RecursionError).
Proof.
  split.
  - pose proof (new_terminates depth els rels) as Hterm.
    destruct (new depth els rels) as [self|[| |]|];
      [by left; exists self|auto..|done].
  - intros Hdepth Hnew%new_RecursionError. lia.
Qed.

(** X5: a returned object holds the two arguments unchanged; every endpoint
    of a covering edge is an element, and the covering edges hold no cycle. *)
Theorem X5_returned_object_is_well_formed (depth : nat) els rels self :
  new depth els rels = Ret self →
  elements self = els ∧ relations self = rels
  ∧ endpoints_in els (hasse_relations self)
  ∧ acyclic (hasse_relations self).
Proof.
  intros Hnew. destruct (new_ret_parts depth els rels self Hnew) as (? & ? & _).
  destruct (new_ret_endpoints depth els rels self Hnew). done.
Qed.

(** X6: whatever the input, the cycle error is raised only when the
    covering edges hold a cycle, and [KeyError] only when an endpoint of a
    covering edge is not an element. *)
Theorem X6_errors_have_causes (depth : nat) els rels :
  (new depth els rels = Raise ValueError →
     has_cycle (hasse_relations (build_hasse_diagram (mkPoset els rels [] ∅))))
  ∧ (new depth els rels = Raise KeyError →
     ¬ endpoints_in els
         (hasse_relations (build_hasse_diagram (mkPoset els rels [] ∅)))).
Proof.
  set (self := build_hasse_diagram (mkPoset els rels [] ∅)).
  split; [by intros [_ ?]%cycle_error_means_cycle|].
  intros Hnew Hends.
  pose proof (check_for_cycles_spec self depth) as Hspec.
  pose proof (check_false_acyclic self depth Hends) as Hacyc.
  unfold new, init in Hnew. fold self in Hnew.
  destruct (check_for_cycles self depth) as [[|]|[| |]|]; try done.
  - specialize (Hacyc eq_refl).
    destruct (relax_loop_terminates _ _ Hacyc Hends)
      as (lv & passes & Hle & Hrun).
    unfold assign_levels in Hnew. change (elements self) with els in *.
    rewrite Hrun in Hnew by lia. done.
  - destruct Hspec. intros a b Hab. by apply (Hends a b).
Qed.

End construction_more.

(** ** What the ranks are *)

Section ranks_more.
Context {E : Type} `{Countable E}.
Implicit Types (self : Poset E) (els : list E) (rels hs : list (E * E)).
Implicit Types (lv : gmap E Z) (a b e u v : E).

(** X7: the rank of an element is the number of edges of a longest walk of
    covering edges that ends at it: a walk of that length exists, and no
    walk ending at the element is longer. *)
Theorem X7_rank_is_longest_walk (depth : nat) els rels self e k :
  new depth els rels = Ret self → has_rank self e k →
  (∃ u, nsteps (edge (hasse_relations self)) (Z.to_nat k) u e)
  ∧ ∀ (j : nat) u, nsteps (edge (hasse_relations self)) j u e → Z.of_nat j ≤ k.
Proof.
  intros (_ & _ & _ & lv & _ & Hrank & _ & Hr & Hst)%new_ret_parts
         [_ Hk]%Hrank.
  split; [by destruct (Hr e k Hk)|].
  intros j u Hwalk. by eapply strict_walk.
Qed.

Lemma walk_lifts (r : E → Z) hs (j : nat) u v :
  (∀ a b, (a, b) ∈ hs → r a + 1 ≤ r b) →
  nsteps (edge hs) j u v → r u + Z.of_nat j ≤ r v.
Proof.
  intros Hr. induction 1 as [x|n x y z Hxy _ IH]; [lia|].
  specialize (Hr x y Hxy). lia.
Qed.

Lemma walk_start_is_element els hs (j : nat) u v :
  endpoints_in els hs → nsteps (edge hs) j u v → v ∈ els → u ∈ els.
Proof.
  intros Hends [x|n x y z Hxy _] Hv; [done|]. by apply (Hends x y).
Qed.

(** X8: the ranks are the least assignment to the elements that starts at
    zero or above and grows by at least one along every covering edge. *)
Theorem X8_ranks_are_least (depth : nat) els rels self (r : E → Z) :
  new depth els rels = Ret self →
  (∀ e, e ∈ els → 0 ≤ r e) →
  (∀ a b, (a, b) ∈ hasse_relations self → r a + 1 ≤ r b) →
  ∀ e k, has_rank self e k → k ≤ r e.
Proof.
  intros Hnew Hpos Hstep e k Hk.
  destruct (new_ret_endpoints depth els rels self Hnew) as [Hends _].
  apply new_ret_parts in Hnew as (_ & _ & _ & lv & _ & Hrank & _ & Hr & _).
  apply Hrank in Hk as [He Hk]. destruct (Hr e k Hk) as [? (u & Hwalk)].
  pose proof (walk_lifts r _ _ _ _ Hstep Hwalk).
  assert (0 ≤ r u) by (apply Hpos; by eapply walk_start_is_element).
  lia.
Qed.

(** X9: an element of rank zero aside, every element has a covering edge
    coming in from an element exactly one rank below: the ranks in use are
    [0, 1, ..., max] without a gap, and an element with no incoming
    covering edge has rank zero. *)
Theorem X9_ranks_have_no_gap (depth : nat) els rels self e k :
  new depth els rels = Ret self → has_rank self e k →
  k = 0 ∨ ∃ a, (a, e) ∈ hasse_relations self ∧ has_rank self a (k - 1).
Proof.
  intros (_ & _ & _ & lv & _ & Hrank & Hkeys & Hr & Hst)%new_ret_parts
         [_ Hk]%Hrank.
  destruct (Hr e k Hk) as [Hpos (u & Hwalk)].
  destruct (decide (k = 0)) as [|Hne]; [by left|]. right.
  replace (Z.to_nat k) with (S (Z.to_nat (k - 1))) in Hwalk by lia.
  apply nsteps_inv_r in Hwalk as (a & Hwalk & Hae).
  exists a. split; [done|].
  destruct (Hst a e Hae) as (la & lb & Ha & Hb & ?).
  rewrite Hk in Hb. injection Hb as <-.
  pose proof (strict_walk _ lv _ u a la Hr Hst Hwalk Ha).
  apply Hrank. split; [apply Hkeys; by rewrite Ha|].
  rewrite Ha. f_equal. lia.
Qed.

Lemma group_levels_snoc (keys : list E) e lv :
  group_levels (keys ++ [e]) lv
  = match lv !! e with
    | Some level => group_step (group_levels keys lv) e level
    | None => group_levels keys lv
    end.
Proof. unfold group_levels. by rewrite foldl_snoc. Qed.

Lemma group_step_lookup (groups : gmap Z (list E)) e (level k : Z) :
  group_step groups e level !! k
  = if decide (k = level) then Some (default [] (groups !! k) ++ [e])
    else groups !! k.
Proof.
  unfold group_step. destruct (decide (k = level)) as [->|Hne].
  - rewrite lookup_alter_eq. destruct (groups !! level) as [bucket|] eqn:Hb.
    + by rewrite Hb.
    + by rewrite lookup_insert_eq.
  - rewrite lookup_alter_ne by done.
    destruct (groups !! level); [done|]. by rewrite lookup_insert_ne.
Qed.

(** Each rank group is the list of the keys of that rank, in key order. *)
Lemma group_levels_lookup (keys : list E) lv (k : Z) :
  group_levels keys lv !! k = as_bucket (filter (λ e, lv !! e = Some k) keys).
Proof.
  induction keys as [|e keys IH] using rev_ind; [apply lookup_empty|].
  rewrite group_levels_snoc, filter_app, (filter_singleton _ e []).
  destruct (lv !! e) as [level|] eqn:He.
  - rewrite group_step_lookup.
    destruct (decide (k = level)) as [->|Hne].
    + rewrite decide_True by done. rewrite IH.
      destruct (filter _ keys); done.
    + rewrite decide_False by congruence. by rewrite app_nil_r.
  - rewrite decide_False by done. by rewrite app_nil_r.
Qed.

Lemma dict_keys_NoDup els : NoDup (dict_keys els).
Proof.
  induction els as [|x els IH]; simpl; [constructor|].
  apply NoDup_cons. split; [|by apply NoDup_filter].
  rewrite list_elem_of_filter. by intros [? _].
Qed.

Lemma dict_keys_sublist els : sublist (dict_keys els) els.
Proof.
  induction els as [|x els IH]; simpl; [done|].
  apply sublist_skip. etransitivity; [apply sublist_filter|done].
Qed.

(** X10: every rank group of a returned object is non-empty, lists no
    element twice and lists its elements in the order of the element list. *)
Theorem X10_rank_groups_keep_element_order (depth : nat) els rels self (k : Z) bucket :
  new depth els rels = Ret self → levels self !! k = Some bucket →
  bucket ≠ [] ∧ NoDup bucket ∧ sublist bucket els.
Proof.
  intros (_ & _ & _ & lv & -> & _)%new_ret_parts.
  rewrite group_levels_lookup.
  pose proof (dict_keys_NoDup els) as Hnd.
  pose proof (dict_keys_sublist els) as Hsub.
  assert (Hf : sublist (filter (λ e, lv !! e = Some k) (dict_keys els))
                       (dict_keys els)) by apply sublist_filter.
  destruct (filter _ (dict_keys els)) as [|e l] eqn:Hfilter; [done|].
  intros [= <-]. split_and!; [done| |by etransitivity].
  rewrite <- Hfilter. by apply NoDup_filter.
Qed.

Lemma relax_loop_strict hs (fuel : nat) lv lv' (passes : nat) :
  relax_loop hs fuel lv = Ret (lv', passes) → strict hs lv'.
Proof.
  revert lv lv' passes.
  induction fuel as [|fuel IH]; intros lv lv' passes; simpl; [done|].
  destruct (relax_pass hs lv false) as [[lv1 changed]| |] eqn:Hpass; simpl; [|done..].
  apply (relax_pass_ret hs) in Hpass as (_ & _ & _ & _ & I5 & _); [|done].
  destruct changed.
  - destruct (relax_loop hs fuel lv1) as [[final n]| |] eqn:Hloop; simpl; [|done..].
    intros [= <- <-]. by eapply IH.
  - intros [= <- <-]. by destruct I5 as (_ & -> & ?).
Qed.

(** X11: whatever assignment the relaxation loop starts from, the one it
    returns is stable: one more pass changes nothing and reports no change,
    so the loop run again stops after that single pass. *)
Theorem X11_returned_ranks_are_stable hs (fuel : nat) lv lv' (passes : nat) :
  relax_loop hs fuel lv = Ret (lv', passes) →
  relax_pass hs lv' false = Ret (lv', false)
  ∧ ∀ fuel', relax_loop hs (S fuel') lv' = Ret (lv', 1%nat).
Proof.
  intros Hst%relax_loop_strict.
  pose proof (relax_pass_stable hs lv' false Hst) as Hpass.
  split; [done|]. intros fuel'. simpl. by rewrite Hpass.
Qed.

End ranks_more.

(** ** The order of a returned object *)

Section order_more.
Context {E : Type} `{Countable E}.
Implicit Types (self : Poset E) (els : list E) (rels : list (E * E)) (a b : E).

(** X12: [has_path] always returns, and returns [True] exactly when a chain
    of covering edges leads from [start] to [end_], the empty chain
    included. *)
Theorem X12_has_path_decides_reachability self (start end_ : E) :
  ∃ r, has_path self start end_ = Ret r
       ∧ (r = true ↔ rtc (edge (hasse_relations self)) start end_).
Proof. apply has_path_spec. Qed.

Lemma new_antisymmetric (depth : nat) els rels self a b :
  new depth els rels = Ret self →
  has_path self a b = Ret true → has_path self b a = Ret true → a = b.
Proof.
  intros [_ Hacyc]%new_ret_endpoints Hab%has_path_true Hba%has_path_true.
  apply rtc_tc in Hab as [?|Hab]; [done|].
  destruct (Hacyc a). by eapply tc_rtc_r.
Qed.

(** X13: on a returned object reachability is antisymmetric: two elements
    that reach each other are the same element. *)
Theorem X13_reachability_is_antisymmetric (depth : nat) els rels self a b :
  new depth els rels = Ret self →
  has_path self a b = Ret true → has_path self b a = Ret true → a = b.
Proof. apply new_antisymmetric. Qed.

(** X14: on a returned object the rank grows strictly along reachability:
    when [a] reaches a different element [b], both have a rank and the
    rank of [b] is the larger one. *)
Theorem X14_rank_grows_along_paths (depth : nat) els rels self a b :
  new depth els rels = Ret self →
  has_path self a b = Ret true → a ≠ b →
  ∃ ka kb, has_rank self a ka ∧ has_rank self b kb ∧ ka < kb.
Proof.
  intros (_ & _ & _ & lv & _ & Hrank & Hkeys & _ & Hst)%new_ret_parts
         Hab%has_path_true Hne.
  apply rtc_tc in Hab as [?|Hab]; [done|].
  destruct (strict_tc _ lv a b Hst Hab) as (la & lb & Ha & Hb & ?).
  exists la, lb. rewrite !Hrank. split_and!; try done.
  - apply Hkeys. by rewrite Ha.
  - apply Hkeys. by rewrite Hb.
Qed.

End order_more.

(** ** The bounds and the lattice check *)

Section bounds_more.
Context {E : Type} `{Countable E}.
Implicit Types (self : Poset E) (els : list E) (rels : list (E * E)).
Implicit Types (x y z u : E).

(** The two comprehensions of [upper_bound] and of [lower_bound], run. *)
Lemma upper_bound_eq self x y :
  upper_bound self x y
  = Ret (single (filter (λ z, above_all self (upper_bounds_of self x y) z = true)
                        (upper_bounds_of self x y))).
Proof.
  unfold upper_bound.
  rewrite (filterM_pure _ (λ z, reachable self x z && reachable self y z))
    by (intros w; apply (has_path_and self x y w w)).
  simpl. fold (upper_bounds_of self x y).
  rewrite (filterM_pure _ (above_all self (upper_bounds_of self x y))); [done|].
  intros z. apply allM_pure. intros u. apply has_path_reachable.
Qed.

Lemma lower_bound_eq self x y :
  lower_bound self x y
  = Ret (single (filter (λ z, below_all self (lower_bounds_of self x y) z = true)
                        (lower_bounds_of self x y))).
Proof.
  unfold lower_bound.
  rewrite (filterM_pure _ (λ z, reachable self z x && reachable self z y))
    by (intros w; apply (has_path_and self w w x y)).
  simpl. fold (lower_bounds_of self x y).
  rewrite (filterM_pure _ (below_all self (lower_bounds_of self x y))); [done|].
  intros z. apply allM_pure. intros u. apply has_path_reachable.
Qed.

Lemma upper_bounds_of_comm self x y :
  upper_bounds_of self x y = upper_bounds_of self y x.
Proof.
  apply list_filter_iff. intros z. by rewrite andb_comm.
Qed.

Lemma lower_bounds_of_comm self x y :
  lower_bounds_of self x y = lower_bounds_of self y x.
Proof.
  apply list_filter_iff. intros z. by rewrite andb_comm.
Qed.

Lemma bounds_swap self x y :
  upper_bound self x y = upper_bound self y x
  ∧ lower_bound self x y = lower_bound self y x.
Proof.
  rewrite !upper_bound_eq, !lower_bound_eq.
  by rewrite (upper_bounds_of_comm self x y), (lower_bounds_of_comm self x y).
Qed.

(** X15: the two bounds do not depend on the order of their arguments. *)
Theorem X15_bounds_are_symmetric self x y :
  upper_bound self x y = upper_bound self y x
  ∧ lower_bound self x y = lower_bound self y x.
Proof. apply bounds_swap. Qed.

Lemma elem_of_upper_bounds_of self x y z :
  z ∈ upper_bounds_of self x y ↔ common_upper self x y z.
Proof.
  unfold upper_bounds_of, common_upper.
  rewrite list_elem_of_filter, andb_true_iff, !has_path_Ret_true. tauto.
Qed.

Lemma elem_of_lower_bounds_of self x y z :
  z ∈ lower_bounds_of self x y ↔ common_lower self x y z.
Proof.
  unfold lower_bounds_of, common_lower.
  rewrite list_elem_of_filter, andb_true_iff, !has_path_Ret_true. tauto.
Qed.

Lemma upper_candidate_iff self x y z :
  upper_candidate self x y z ↔
  z ∈ upper_bounds_of self x y
  ∧ above_all self (upper_bounds_of self x y) z = true.
Proof.
  unfold upper_candidate, above_all.
  rewrite bool_decide_eq_true, Forall_forall, elem_of_upper_bounds_of.
  setoid_rewrite elem_of_upper_bounds_of.
  by setoid_rewrite has_path_Ret_true.
Qed.

Lemma lower_candidate_iff self x y z :
  lower_candidate self x y z ↔
  z ∈ lower_bounds_of self x y
  ∧ below_all self (lower_bounds_of self x y) z = true.
Proof.
  unfold lower_candidate, below_all.
  rewrite bool_decide_eq_true, Forall_forall, elem_of_lower_bounds_of.
  setoid_rewrite elem_of_lower_bounds_of.
  by setoid_rewrite has_path_Ret_true.
Qed.

Lemma upper_bound_sound self x y z :
  upper_bound self x y = Ret (Some z) → upper_candidate self x y z.
Proof.
  rewrite upper_bound_eq. intros [= Hs%single_Some].
  apply upper_candidate_iff.
  assert (Hz : z ∈ filter (λ z, above_all self (upper_bounds_of self x y) z = true)
                          (upper_bounds_of self x y)) by (rewrite Hs; left).
  apply list_elem_of_filter in Hz. tauto.
Qed.

Lemma lower_bound_sound self x y z :
  lower_bound self x y = Ret (Some z) → lower_candidate self x y z.
Proof.
  rewrite lower_bound_eq. intros [= Hs%single_Some].
  apply lower_candidate_iff.
  assert (Hz : z ∈ filter (λ z, below_all self (lower_bounds_of self x y) z = true)
                          (lower_bounds_of self x y)) by (rewrite Hs; left).
  apply list_elem_of_filter in Hz. tauto.
Qed.

(** X16: whatever the object, an element that [upper_bound] returns is an
    element of the poset that both arguments reach and that every common
    upper bound reaches; an element that [lower_bound] returns is an
    element that reaches both arguments and every common lower bound. *)
Theorem X16_returned_bounds_are_candidates self x y z :
  (upper_bound self x y = Ret (Some z) → upper_candidate self x y z)
  ∧ (lower_bound self x y = Ret (Some z) → lower_candidate self x y z).
Proof. split; [apply upper_bound_sound|apply lower_bound_sound]. Qed.

(** X17: on a returned object whose element list has no duplicates a
    candidate is always the only one, so each bound is [None] exactly when
    no candidate exists. *)
Theorem X17_bounds_of_a_returned_object (depth : nat) els rels self x y z :
  new depth els rels = Ret self → NoDup els →
  (upper_bound self x y = Ret (Some z) ↔ upper_candidate self x y z)
  ∧ (lower_bound self x y = Ret (Some z) ↔ lower_candidate self x y z).
Proof.
  intros Hnew Hnd.
  assert (Hels : elements self = els)
    by by destruct (new_ret_parts depth els rels self Hnew).
  split; (split; [apply upper_bound_sound || apply lower_bound_sound|]).
  - intros Hz. rewrite upper_bound_eq. f_equal.
    apply single_filter.
    { unfold upper_bounds_of. rewrite Hels. by apply NoDup_filter. }
    pose proof Hz as [Hz1 Hz2]%upper_candidate_iff.
    split; [done|]. intros z' Hz'1 Hz'2.
    apply (new_antisymmetric depth els rels self z' z Hnew).
    + apply Hz. by apply elem_of_upper_bounds_of.
    + assert (Hc : upper_candidate self x y z')
        by by apply upper_candidate_iff.
      apply Hc. by apply elem_of_upper_bounds_of.
  - intros Hz. rewrite lower_bound_eq. f_equal.
    apply single_filter.
    { unfold lower_bounds_of. rewrite Hels. by apply NoDup_filter. }
    pose proof Hz as [Hz1 Hz2]%lower_candidate_iff.
    split; [done|]. intros z' Hz'1 Hz'2.
    apply (new_antisymmetric depth els rels self z' z Hnew).
    + assert (Hc : lower_candidate self x y z')
        by by apply lower_candidate_iff.
      apply Hc. by apply elem_of_lower_bounds_of.
    + apply Hz. by apply elem_of_lower_bounds_of.
Qed.

End bounds_more.

Section lattice_more.
Context {E : Type} `{Countable E} `{Truthy E}.
Implicit Types (self : Poset E) (l : list E) (x y : E).

Lemma elem_of_combinations2 l x y :
  (x, y) ∈ combinations2 l → x ∈ l ∧ y ∈ l ∧ (NoDup l → x ≠ y).
Proof.
  induction l as [|w l IH]; simpl; [by intros ?%elem_of_nil|].
  intros [Hin|Hin]%elem_of_app.
  - apply list_elem_of_fmap in Hin as (y' & [= -> ->] & Hy).
    split_and!; [left|by right|].
    intros [Hn _]%NoDup_cons ->. done.
  - destruct (IH Hin) as (? & ? & Hne).
    split_and!; [by right|by right|].
    intros [_ ?]%NoDup_cons. by apply Hne.
Qed.

Lemma combinations2_complete l x y :
  x ∈ l → y ∈ l → x ≠ y →
  (x, y) ∈ combinations2 l ∨ (y, x) ∈ combinations2 l.
Proof.
  induction l as [|w l IH]; simpl; [by intros ?%elem_of_nil|].
  intros [->|Hx]%elem_of_cons [->|Hy]%elem_of_cons Hne; try done.
  - left. apply elem_of_app. left. by apply (list_elem_of_fmap_2 _ _ y).
  - right. apply elem_of_app. left. by apply (list_elem_of_fmap_2 _ _ x).
  - destruct (IH Hx Hy Hne); [left|right]; apply elem_of_app; by right.
Qed.

(** X18: when the elements are listed once each and Python counts every
    one of them as true, [is_lattice] returns [True] exactly when both
    bounds of any two different elements are elements, and [False]
    otherwise. *)
Theorem X18_is_lattice_over_truthy_elements self :
  NoDup (elements self) →
  (∀ e, e ∈ elements self → truthy e = true) →
  ∃ r, is_lattice self = Ret r
       ∧ (r = true ↔
          ∀ x y, x ∈ elements self → y ∈ elements self → x ≠ y →
            (∃ ub, upper_bound self x y = Ret (Some ub))
            ∧ (∃ lb, lower_bound self x y = Ret (Some lb))).
Proof.
  intros Hnd Htruthy. destruct (is_lattice_spec self) as (r & Hr & Hspec).
  exists r. split; [done|]. rewrite Hspec. clear Hspec Hr. split.
  - intros Hall x y Hx Hy Hne.
    destruct (combinations2_complete _ x y Hx Hy Hne) as [Hin|Hin];
      destruct (Hall _ _ Hin) as (ub & lb & Hub & _ & Hlb & _).
    + split; [by exists ub|by exists lb].
    + destruct (bounds_swap self x y) as [-> ->].
      split; [by exists ub|by exists lb].
  - intros Hall x y (Hx & Hy & Hne)%elem_of_combinations2.
    destruct (Hall x y Hx Hy (Hne Hnd)) as [[ub Hub] [lb Hlb]].
    exists ub, lb. split_and!; try done.
    + apply Htruthy. by apply upper_bound_sound in Hub as [[? _] _].
    + apply Htruthy. by apply lower_bound_sound in Hlb as [[? _] _].
Qed.

End lattice_more.

(** ** The methods called again *)

Section methods_again.
Context {E : Type} `{Countable E}.
Implicit Types (self : Poset E) (els : list E) (rels : list (E * E)).

(** X19: on a returned object the three steps of the constructor can be
    run again and change nothing: [build_hasse_diagram] and
    [assign_levels] give the same object back and [check_for_cycles]
    returns [False], with the nested calls that construction was allowed
    or with more. *)
Theorem X19_constructor_steps_are_repeatable (depth : nat) els rels self :
  new depth els rels = Ret self →
  build_hasse_diagram self = self
  ∧ (∀ d, (depth ≤ d)%nat → check_for_cycles self d = Ret false)
  ∧ assign_levels self (S (length els)) = Ret self.
Proof.
  intros Hnew.
  destruct (new_ret_parts depth els rels self Hnew) as (Hels & Hrels & Hhs & _).
  destruct (new_ret depth els rels self Hnew) as [Hcheck Hassign].
  split_and!.
  - unfold build_hasse_diagram. rewrite Hrels.
    destruct self as [e r h l]. simpl in *. by subst.
  - intros d Hd. apply (check_for_cycles_mono self depth d); [done| |done].
    by rewrite (check_for_cycles_same_graph self
                  (build_hasse_diagram (mkPoset els rels [] ∅)) depth).
  - unfold assign_levels in *. rewrite Hels, Hrels, Hhs. exact Hassign.
Qed.

End methods_again.

(** ** The two guarded steps on their own *)

Section steps_alone.
Context {E : Type} `{Countable E}.
Implicit Types (self : Poset E) (els : list E) (hs : list (E * E)).
Implicit Types (lv : gmap E Z).

(** X20: on any object [check_for_cycles] returns or raises [KeyError] or
    [RecursionError]. It returns [True] only when the covering edges hold a
    cycle, [False] only when no element lies on a cycle; it raises
    [KeyError] only when some covering edge leads to a value that is not an
    element, and [RecursionError] only when the interpreter allows fewer
    nested calls of [dfs] than there are elements. *)
Theorem X20_check_for_cycles_outcomes self (depth : nat) :
  (check_for_cycles self depth = Ret true → has_cycle (hasse_relations self))
  ∧ (check_for_cycles self depth = Ret false →
       ∀ x, x ∈ elements self → ¬ tc (edge (hasse_relations self)) x x)
  ∧ (check_for_cycles self depth = Raise KeyError →
       ¬ ∀ a b, (a, b) ∈ hasse_relations self → b ∈ elements self)
  ∧ (check_for_cycles self depth = Raise RecursionError →
       (depth < length (elements self))%nat)
  ∧ check_for_cycles self depth ≠ Raise ValueError
  ∧ check_for_cycles self depth ≠ OutOfFuel.
Proof.
  pose proof (check_for_cycles_spec self depth) as Hspec.
  destruct (check_for_cycles self depth) as [[|]|[| |]|]; split_and!; done.
Qed.

Lemma relax_loop_not_KeyError hs (fuel : nat) lv :
  (∀ a b, (a, b) ∈ hs → is_Some (lv !! a) ∧ is_Some (lv !! b)) →
  relax_loop hs fuel lv ≠ Raise KeyError.
Proof.
  revert lv. induction fuel as [|fuel IH]; intros lv Hkeys; simpl; [done|].
  destruct (relax_pass_total hs lv false Hkeys) as (lv1 & changed & Hpass).
  rewrite Hpass. simpl. destruct changed; [|done].
  apply (relax_pass_ret hs) in Hpass as (Hsame & _); [|done].
  assert (Hne : relax_loop hs fuel lv1 ≠ Raise KeyError).
  { apply IH. intros a b Hab. unfold same_keys in Hsame.
    rewrite !Hsame. by apply Hkeys. }
  by destruct (relax_loop hs fuel lv1) as [[? ?]|[| |]|].
Qed.

(** X21: over covering edges that hold a cycle and whose endpoints are
    elements, the relaxation loop of [assign_levels] never stops: whatever
    the number of passes allowed, it is still running when they are used
    up. The cycle check before it is what makes construction end. *)
Theorem X21_relaxation_runs_forever_on_a_cycle hs els (fuel : nat) :
  has_cycle hs → endpoints_in els hs →
  relax_loop hs fuel (all_zero els) = OutOfFuel.
Proof.
  intros [x Hx] Hends.
  pose proof (relax_loop_raises_KeyError hs fuel (all_zero els)) as Hv.
  pose proof (relax_loop_not_KeyError hs fuel (all_zero els)) as Hk.
  destruct (relax_loop hs fuel (all_zero els)) as [[lv passes]|e|] eqn:Hloop;
    try done.
  - apply relax_loop_strict in Hloop. by destruct (strict_acyclic hs lv Hloop x).
  - rewrite (Hv e eq_refl) in Hk. destruct Hk; [|done].
    intros a b Hab. destruct (Hends a b Hab). by rewrite !all_zero_keys.
Qed.

End steps_alone.

(** ** The further properties at work on the scenarios *)

Lemma scenario_a_raw_acyclic : acyclic scenario_a_relations.
Proof.
  assert (Hends : endpoints_in (elements scenario_a_raw)
                               (hasse_relations scenario_a_raw)).
  { apply endpoints_in_Forall, (bool_decide_unpack _). vm_compute. exact I. }
  destruct (check_for_cycles_decides scenario_a_raw 9 Hends (le_n 9))
    as [[Hc _]|[_ Hacyc]]; [|exact Hacyc].
  vm_compute in Hc. discriminate Hc.
Defined.

Lemma X3_witness_scenario_a :
  rtc (edge (hasse_relations scenario_a_poset)) 1 4
  ↔ rtc (edge scenario_a_relations) 1 4.
Proof.
  exact (X3_reduction_keeps_reachability
           (mkPoset scenario_a_elements scenario_a_relations [] ∅) 1 4
           scenario_a_raw_acyclic).
Defined.

Lemma X5_witness_scenario_a :
  elements scenario_a_built = scenario_a_elements
  ∧ relations scenario_a_built = scenario_a_relations
  ∧ endpoints_in scenario_a_elements (hasse_relations scenario_a_built)
  ∧ acyclic (hasse_relations scenario_a_built).
Proof.
  apply (X5_returned_object_is_well_formed 4 _ scenario_a_relations).
  vm_compute. reflexivity.
Defined.

Lemma X6_witness_scenarios :
  has_cycle (hasse_relations
               (build_hasse_diagram
                  (mkPoset scenario_b_elements scenario_b_relations [] ∅)))
  ∧ ¬ endpoints_in stray_elements
        (hasse_relations
           (build_hasse_diagram (mkPoset stray_elements stray_relations [] ∅))).
Proof.
  split.
  - apply (proj1 (X6_errors_have_causes 3 _ _)). vm_compute. reflexivity.
  - apply (proj2 (X6_errors_have_causes 3 _ _)). vm_compute. reflexivity.
Defined.

Lemma scenario_a_rank_of_4 : has_rank scenario_a_built 4 3.
Proof. exists [4]. split; [vm_compute; reflexivity|left]. Defined.

Lemma X7_witness_scenario_a :
  (∃ u, nsteps (edge (hasse_relations scenario_a_built)) (Z.to_nat 3) u 4)
  ∧ ∀ (j : nat) u,
      nsteps (edge (hasse_relations scenario_a_built)) j u 4 → Z.of_nat j ≤ 3.
Proof.
  apply (X7_rank_is_longest_walk 4 scenario_a_elements scenario_a_relations).
  - vm_compute. reflexivity.
  - exact scenario_a_rank_of_4.
Defined.

Lemma X8_witness_scenario_a : 3 ≤ tenfold_rank 4.
Proof.
  apply (X8_ranks_are_least 4 scenario_a_elements scenario_a_relations
           scenario_a_built tenfold_rank).
  - vm_compute. reflexivity.
  - apply Forall_forall, (bool_decide_unpack _). vm_compute. exact I.
  - intros a b Hab.
    assert (Hall : Forall (λ p, tenfold_rank p.1 + 1 ≤ tenfold_rank p.2)
                          (hasse_relations scenario_a_built)).
    { apply (bool_decide_unpack _). vm_compute. exact I. }
    rewrite Forall_forall in Hall. apply (Hall (a, b) Hab).
  - exact scenario_a_rank_of_4.
Defined.

Lemma X9_witness_scenario_a :
  3 = 0 ∨ ∃ a, (a, 4) ∈ hasse_relations scenario_a_built
               ∧ has_rank scenario_a_built a (3 - 1).
Proof.
  apply (X9_ranks_have_no_gap 4 scenario_a_elements scenario_a_relations).
  - vm_compute. reflexivity.
  - exact scenario_a_rank_of_4.
Defined.

Lemma X10_witness_scenario_a :
  [2; 3; 6; 7] ≠ [] ∧ NoDup [2; 3; 6; 7]
  ∧ sublist [2; 3; 6; 7] scenario_a_elements.
Proof.
  apply (X10_rank_groups_keep_element_order
           4 scenario_a_elements scenario_a_relations scenario_a_built 2).
  - vm_compute. reflexivity.
  - vm_compute. reflexivity.
Defined.

Lemma X11_witness_scenario_a :
  relax_pass (hasse_relations scenario_a_poset) scenario_a_ranks false
  = Ret (scenario_a_ranks, false)
  ∧ ∀ fuel', relax_loop (hasse_relations scenario_a_poset) (S fuel')
                        scenario_a_ranks
             = Ret (scenario_a_ranks, 1%nat).
Proof.
  apply (X11_returned_ranks_are_stable _ 10 (all_zero scenario_a_elements)
           scenario_a_ranks scenario_a_passes).
  vm_compute. reflexivity.
Defined.

Lemma X13_witness_scenario_a : (4 : Z) = 4.
Proof.
  apply (X13_reachability_is_antisymmetric
           4 scenario_a_elements scenario_a_relations scenario_a_built 4 4);
    vm_compute; reflexivity.
Defined.

Lemma X14_witness_scenario_a :
  ∃ ka kb, has_rank scenario_a_built 5 ka ∧ has_rank scenario_a_built 4 kb
           ∧ ka < kb.
Proof.
  apply (X14_rank_grows_along_paths 4 scenario_a_elements scenario_a_relations).
  - vm_compute. reflexivity.
  - vm_compute. reflexivity.
  - discriminate.
Defined.

Lemma X16_witness_scenario_a : lower_candidate scenario_a_built 2 3 5.
Proof.
  apply (proj2 (X16_returned_bounds_are_candidates scenario_a_built 2 3 5)).
  vm_compute. reflexivity.
Defined.

Lemma X17_witness_scenario_a :
  (upper_bound scenario_a_built 2 3 = Ret (Some 5)
   ↔ upper_candidate scenario_a_built 2 3 5)
  ∧ (lower_bound scenario_a_built 2 3 = Ret (Some 5)
     ↔ lower_candidate scenario_a_built 2 3 5).
Proof.
  apply (X17_bounds_of_a_returned_object
           4 scenario_a_elements scenario_a_relations).
  - vm_compute. reflexivity.
  - apply (bool_decide_unpack _). vm_compute. exact I.
Defined.

Lemma X18_witness_scenario_a :
  ∃ r, is_lattice scenario_a_built = Ret r
       ∧ (r = true ↔
          ∀ x y, x ∈ elements scenario_a_built →
                 y ∈ elements scenario_a_built → x ≠ y →
            (∃ ub, upper_bound scenario_a_built x y = Ret (Some ub))
            ∧ (∃ lb, lower_bound scenario_a_built x y = Ret (Some lb))).
Proof.
  apply X18_is_lattice_over_truthy_elements.
  - apply (bool_decide_unpack _). vm_compute. exact I.
  - apply Forall_forall, (bool_decide_unpack _). vm_compute. exact I.
Defined.

Lemma X19_witness_scenario_a :
  build_hasse_diagram scenario_a_built = scenario_a_built
  ∧ (∀ d, (4 ≤ d)%nat → check_for_cycles scenario_a_built d = Ret false)
  ∧ assign_levels scenario_a_built (S (length scenario_a_elements))
    = Ret scenario_a_built.
Proof.
  apply (X19_constructor_steps_are_repeatable 4 _ scenario_a_relations).
  vm_compute. reflexivity.
Defined.

Lemma X21_witness_scenario_b :
  relax_loop scenario_b_relations 100 (all_zero scenario_b_elements) = OutOfFuel.
Proof.
  apply X21_relaxation_runs_forever_on_a_cycle.
  - exists 1.
    apply (tc_l _ 1 2 1); [|apply (tc_l _ 2 3 1); [|apply (tc_once _ 3 1)]];
      unfold edge; apply (bool_decide_unpack _); vm_compute; exact I.
  - apply endpoints_in_Forall, (bool_decide_unpack _). vm_compute. exact I.
Defined.

End Hasse.
